(** * ReynirCorrect: the annotation pipeline of [reynir_correct/checker.py]

    A shallow embedding of the spelling and grammar checker's decision
    logic: the subject-case predicates of [ErrorDetectionToken], the
    sentence annotator [GreynirCorrect.annotate] and the lock-protected
    parser singleton of [GreynirCorrect.parser].

    Conventions.
    - Python [int] is [Z]; Python [str] is [string] (the UTF-8 bytes of the
      text; the markers searched for are ASCII, so byte-wise substring
      search agrees with code-point search).
    - Python [dict]/[set] tables are stdpp [gmap]/[gset].
    - A raised exception is a value of [result]. *)

From Stdlib Require Import ZArith QArith Qround Lqa Lia List Bool.
From Stdlib Require Import Sorting.Sorted Sorting.Permutation.
From Stdlib Require Import Strings.String Strings.Ascii Numbers.DecimalString.
From stdpp Require Import base gmap strings list.
Import ListNotations.

Local Open Scope Z_scope.
Local Open Scope string_scope.

(** ** Python string primitives *)

Module PyStr.

(** [needle in hay] for two [str] values: substring search. *)
Fixpoint contains (needle hay : string) : bool :=
  if String.prefix needle hay then true
  else match hay with
       | EmptyString => false
       | String _ rest => contains needle rest
       end.

(** What [contains] is meant to decide. *)
Definition occurs_in (needle hay : string) : Prop :=
  exists pre post : string, hay = pre ++ needle ++ post.

(** Truthiness of a [str]: non-empty. *)
Definition truthy (s : string) : bool :=
  match s with
  | EmptyString => false
  | String _ _ => true
  end.

(** [sep.join(parts)]. *)
Definition join (sep : string) (parts : list string) : string :=
  String.concat sep parts.

(** [str(n)] / [{0}] formatting of an [int]. *)
Definition str_of_int (n : Z) : string :=
  NilZero.string_of_int (Z.to_int n).

Lemma prefix_occurs (n h : string) :
  String.prefix n h = true <-> exists post : string, h = n ++ post.
Proof.
  revert h; induction n as [|c n IH]; intros h.
  - split; [intros _; now exists h | intros _; now destruct h].
  - destruct h as [|d h]; simpl.
    + split; [discriminate | intros [post Hp]; discriminate].
    + destruct (Ascii.ascii_dec c d) as [->|Hne].
      * rewrite IH. split; intros [post Hp].
        -- exists post. now rewrite Hp.
        -- exists post. now inversion Hp.
      * split; [discriminate|]. intros [post Hp].
        inversion Hp. congruence.
Qed.

Lemma contains_unfold (n h : string) :
  contains n h
  = String.prefix n h
    || match h with
       | EmptyString => false
       | String _ rest => contains n rest
       end.
Proof. now destruct h. Qed.

Lemma contains_occurs (n h : string) :
  contains n h = true <-> occurs_in n h.
Proof.
  unfold occurs_in. induction h as [|d h IH];
    rewrite contains_unfold, orb_true_iff, prefix_occurs.
  - split.
    + intros [[post E]|E]; [now exists "", post | discriminate].
    + intros (pre & post & Hp). left.
      destruct pre; simpl in Hp; [now exists post | discriminate].
  - rewrite IH. split.
    + intros [[post E]|(pre & post & E)].
      * now exists "", post.
      * exists (String d pre), post. now rewrite E.
    + intros (pre & post & Hp). destruct pre as [|e pre]; simpl in Hp.
      * left. now exists post.
      * right. inversion Hp; subst. now exists pre, post.
Qed.

End PyStr.

(** ** SubjectCaseMatcher: the predicates of [ErrorDetectionToken] *)

Module SubjectCase.

(** The static verb tables of [reynir.settings.VerbSubjects], as the
    checker reads them.  [VERBS] backs [BIN_Token._VERB_SUBJECTS] and
    [VERBS_ERRORS] backs [_VERB_ERROR_SUBJECTS]; membership in a table entry
    is all the checker asks of them, so an entry is the set of subject cases
    it holds.  [is_strictly_impersonal] is the library's registry lookup:
    by the checker's comments it answers whether the verb is marked with an
    error correction from the nominative case to another subject case. *)
Record VerbSubjects := {
  VERBS : gmap string (gset string);
  VERBS_ERRORS : gmap string (gset string);
  is_strictly_impersonal : string -> bool
}.

(** [_RESTRICTIVE_VARIANTS]. *)
Definition _RESTRICTIVE_VARIANTS : list string := ["sagnb"; "lhþt"; "bh"].

Section Predicates.

Context (VS : VerbSubjects).

(** [d.get(verb, set())]. *)
Definition get_or_empty (d : gmap string (gset string)) (verb : string)
  : gset string :=
  default ∅ (d !! verb).

(** [ErrorDetectionToken.verb_is_strictly_impersonal]. *)
Definition verb_is_strictly_impersonal (verb form : string) : bool :=
  if PyStr.contains "OP" form && negb (is_strictly_impersonal VS verb)
  then true
  else false.

(** [ErrorDetectionToken.verb_cannot_be_impersonal]:
    [any(f in form for f in ("BH", "NH", "FT"))]. *)
Definition verb_cannot_be_impersonal (verb form : string) : bool :=
  existsb (fun f => PyStr.contains f form) ["BH"; "NH"; "FT"].

(** [ErrorDetectionToken.verb_subject_matches]. *)
Definition verb_subject_matches (verb subj : string) : bool :=
  bool_decide (subj ∈ get_or_empty (VERBS VS) verb)
  || bool_decide (subj ∈ get_or_empty (VERBS_ERRORS VS) verb).

End Predicates.

(** In the spec's words: an erroneous-subject-case correction is registered
    for [verb], that is, its known-erroneous subject set is not empty. *)
Definition correction_registered (VS : VerbSubjects) (verb : string) : Prop :=
  exists c : string, c ∈ get_or_empty (VERBS_ERRORS VS) verb.

(** The tables of a small lexicon, to run the predicates on: "hlakka" takes
    a nominative subject and is often met with a dative or accusative one;
    "daga" is impersonal and is met with a nominative one. *)
Definition demo_subjects : VerbSubjects := {|
  VERBS := {[ "langa" := {[ "þf" ]} ; "hlakka" := {[ "nf" ]} ]};
  VERBS_ERRORS := {[ "hlakka" := {[ "þgf"; "þf" ]} ; "daga" := {[ "nf" ]} ]};
  is_strictly_impersonal := fun verb => bool_decide (verb = "daga")
|}.

(** *** Facts about the three predicates *)

Lemma get_or_empty_unregistered (d : gmap string (gset string)) (verb : string) :
  d !! verb = None -> get_or_empty d verb = ∅.
Proof. unfold get_or_empty. now intros ->. Qed.

Lemma any_marker_occurs (markers : list string) (form : string) :
  existsb (fun f => PyStr.contains f form) markers = true
  <-> exists m : string, In m markers /\ PyStr.occurs_in m form.
Proof.
  rewrite existsb_exists. split; intros (m & Hin & Hm); exists m; split; auto;
    now apply PyStr.contains_occurs.
Qed.

(** C5, as the spec words it, fails: "hlakka" has an erroneous-subject-case
    correction registered and is not registered as strictly impersonal, and
    on an impersonal form of it the predicate still answers true. *)
Lemma verb_is_strictly_impersonal_ignores_corrections :
  correction_registered demo_subjects "hlakka"
  /\ is_strictly_impersonal demo_subjects "hlakka" = false
  /\ PyStr.occurs_in "OP" "OP-ÞGF-GM-FH-NT-3P-ET"
  /\ verb_is_strictly_impersonal demo_subjects "hlakka" "OP-ÞGF-GM-FH-NT-3P-ET"
     = true.
Proof.
  split; [|split; [|split]].
  - exists "þgf". vm_compute. reflexivity.
  - reflexivity.
  - now exists "", "-ÞGF-GM-FH-NT-3P-ET".
  - vm_compute. reflexivity.
Qed.

(** C5, amended.  [verb_is_strictly_impersonal verb form] is true exactly
    when the form contains the impersonal marker "OP" and the verb is not
    registered as strictly impersonal, and false in every other case.  That
    registry is all the predicate reads of the verb: the subject tables,
    and with them any other registered correction, do not change the
    answer. *)
Theorem verb_is_strictly_impersonal_spec
  (VS : VerbSubjects) (verb form : string) :
  (verb_is_strictly_impersonal VS verb form = true
   <-> PyStr.occurs_in "OP" form /\ is_strictly_impersonal VS verb = false)
  /\ (verb_is_strictly_impersonal VS verb form = false
      <-> ~ PyStr.occurs_in "OP" form \/ is_strictly_impersonal VS verb = true)
  /\ (forall VS' : VerbSubjects,
        is_strictly_impersonal VS' verb = is_strictly_impersonal VS verb ->
        verb_is_strictly_impersonal VS' verb form
        = verb_is_strictly_impersonal VS verb form).
Proof.
  unfold verb_is_strictly_impersonal.
  rewrite <- (PyStr.contains_occurs "OP" form).
  split; [|split].
  - destruct (PyStr.contains "OP" form), (is_strictly_impersonal VS verb);
      simpl; intuition congruence.
  - destruct (PyStr.contains "OP" form), (is_strictly_impersonal VS verb);
      simpl; intuition congruence.
  - now intros VS' ->.
Qed.

(** C6.  [verb_cannot_be_impersonal verb form] is true if and only if the
    form contains "BH" (imperative), "NH" (infinitive) or "FT" (plural), one
    of them or several; the verb plays no part, and two forms that agree on
    which of the three markers they contain get the same answer. *)
Theorem verb_cannot_be_impersonal_spec (verb form : string) :
  (verb_cannot_be_impersonal verb form = true
   <-> PyStr.occurs_in "BH" form \/ PyStr.occurs_in "NH" form
       \/ PyStr.occurs_in "FT" form)
  /\ (forall verb' : string,
        verb_cannot_be_impersonal verb' form
        = verb_cannot_be_impersonal verb form)
  /\ (forall form' : string,
        (forall m : string, In m ["BH"; "NH"; "FT"] ->
           (PyStr.occurs_in m form <-> PyStr.occurs_in m form')) ->
        verb_cannot_be_impersonal verb form'
        = verb_cannot_be_impersonal verb form).
Proof.
  split; [|split].
  - unfold verb_cannot_be_impersonal. rewrite any_marker_occurs. split.
    + intros (m & Hin & Hm). simpl in Hin.
      destruct Hin as [<-|[<-|[<-|[]]]]; auto.
    + intros [H|[H|H]]; eexists; (split; [|exact H]); simpl; auto.
  - reflexivity.
  - intros form' Hsame.
    apply eq_true_iff_eq. unfold verb_cannot_be_impersonal.
    rewrite !any_marker_occurs.
    split; intros (m & Hin & Hm); exists m; split; auto;
      now apply (Hsame m Hin).
Qed.

Lemma in_get_or_empty (d : gmap string (gset string)) (verb subj : string) :
  subj ∈ get_or_empty d verb
  <-> exists s : gset string, d !! verb = Some s /\ subj ∈ s.
Proof.
  unfold get_or_empty. destruct (d !! verb) as [s|]; simpl.
  - split; [intros H; now exists s | now intros (s' & [= <-] & H)].
  - split; [intros H; now apply not_elem_of_empty in H|].
    now intros (s' & Hs & _).
Qed.

(** C7.  [verb_subject_matches verb subj] is true if and only if the
    accepted-subject table or the erroneous-subject table has an entry for
    [verb] that holds [subj]; the two arguments are looked up as given.  A
    case held by the verb's entry in either table gives true, a verb with no
    entry in either table gives false, and a case that is in neither entry
    gives false; in particular all this holds of the pair "hlakka", "þgf". *)
Theorem verb_subject_matches_spec (VS : VerbSubjects) (verb subj : string) :
  (verb_subject_matches VS verb subj = true
   <-> (exists s : gset string, VERBS VS !! verb = Some s /\ subj ∈ s)
       \/ (exists s : gset string,
              VERBS_ERRORS VS !! verb = Some s /\ subj ∈ s))
  /\ (forall s : gset string,
        VERBS VS !! verb = Some s -> subj ∈ s ->
        verb_subject_matches VS verb subj = true)
  /\ (forall s : gset string,
        VERBS_ERRORS VS !! verb = Some s -> subj ∈ s ->
        verb_subject_matches VS verb subj = true)
  /\ (VERBS VS !! verb = None -> VERBS_ERRORS VS !! verb = None ->
      verb_subject_matches VS verb subj = false)
  /\ (forall s e : gset string,
        VERBS VS !! verb = Some s -> VERBS_ERRORS VS !! verb = Some e ->
        subj ∉ s -> subj ∉ e ->
        verb_subject_matches VS verb subj = false)
  /\ (verb_subject_matches VS "hlakka" "þgf" = true
      <-> (exists s : gset string,
             VERBS VS !! "hlakka" = Some s /\ "þgf" ∈ s)
          \/ (exists s : gset string,
                 VERBS_ERRORS VS !! "hlakka" = Some s /\ "þgf" ∈ s)).
Proof.
  assert (Hiff : forall v c : string,
             verb_subject_matches VS v c = true
             <-> (exists s : gset string, VERBS VS !! v = Some s /\ c ∈ s)
                 \/ (exists s : gset string,
                        VERBS_ERRORS VS !! v = Some s /\ c ∈ s)).
  { intros v c. unfold verb_subject_matches.
    now rewrite orb_true_iff, !bool_decide_eq_true, !in_get_or_empty. }
  split; [apply Hiff|]. split; [|split; [|split; [|split]]].
  - intros s Hs Hin. apply Hiff. left. now exists s.
  - intros s Hs Hin. apply Hiff. right. now exists s.
  - intros Hv He. apply not_true_is_false. rewrite Hiff.
    intros [(s & Hs & _)|(s & Hs & _)]; congruence.
  - intros s e Hs He Hns Hne. apply not_true_is_false. rewrite Hiff.
    intros [(s' & Hs' & Hin)|(s' & Hs' & Hin)].
    + rewrite Hs in Hs'. inversion Hs'; subst. now apply Hns.
    + rewrite He in Hs'. inversion Hs'; subst. now apply Hne.
  - apply Hiff.
Qed.

(** The entry of "hlakka" in the erroneous-subject table holds "þgf". *)
Lemma verb_subject_matches_spec_witness :
  verb_subject_matches demo_subjects "hlakka" "þgf" = true.
Proof.
  destruct (verb_subject_matches_spec demo_subjects "hlakka" "þgf")
    as (_ & _ & Herr & _).
  apply (Herr {[ "þgf"; "þf" ]}); [vm_compute; reflexivity|].
  vm_compute. reflexivity.
Defined.

Example hlakka_dative_matches :
  verb_subject_matches demo_subjects "hlakka" "þgf" = true.
Proof. vm_compute. reflexivity. Qed.

Example hlakka_uppercase_does_not_match :
  verb_subject_matches demo_subjects "hlakka" "ÞGF" = false.
Proof. vm_compute. reflexivity. Qed.

Example unknown_verb_does_not_match :
  verb_subject_matches demo_subjects "sofa" "nf" = false.
Proof. vm_compute. reflexivity. Qed.

Example langa_impersonal_form_is_blocked :
  verb_is_strictly_impersonal demo_subjects "langa" "OP-ÞF-GM-FH-NT-1P-ET" = true.
Proof. vm_compute. reflexivity. Qed.

Example daga_impersonal_form_is_let_through :
  verb_is_strictly_impersonal demo_subjects "daga" "OP-ÞF-GM-FH-ÞT-3P-ET" = false.
Proof. vm_compute. reflexivity. Qed.

Example plural_infinitive_cannot_be_impersonal :
  verb_cannot_be_impersonal "hlakka" "GM-FH-NT-1P-FT" = true
  /\ verb_cannot_be_impersonal "hlakka" "GM-NH" = true
  /\ verb_cannot_be_impersonal "hlakka" "GM-BH-FT" = true
  /\ verb_cannot_be_impersonal "hlakka" "GM-FH-NT-3P-ET" = false.
Proof. vm_compute. auto. Qed.

End SubjectCase.

(** ** Python list and number primitives *)

Module PyList.

Local Open Scope Z_scope.
Local Open Scope list_scope.

(** How a slice bound is read against a list of length [len]: a negative
    bound counts from the end, and every bound is clamped to [0, len]. *)
Definition slice_bound (len i : Z) : Z :=
  if i <? 0 then Z.max 0 (len + i) else Z.min len i.

(** [l[start:stop]]. *)
Definition slice {A : Type} (l : list A) (start stop : Z) : list A :=
  let len := Z.of_nat (length l) in
  let lo := slice_bound len start in
  let hi := slice_bound len stop in
  firstn (Z.to_nat (hi - lo)) (skipn (Z.to_nat lo) l).

(** The elements of [l] whose position lies in the half-open window
    [lo, hi), positions counted from [base]. *)
Fixpoint window {A : Type} (base lo hi : Z) (l : list A) : list A :=
  match l with
  | [] => []
  | x :: rest =>
      if (lo <=? base) && (base <? hi)
      then x :: window (base + 1) lo hi rest
      else window (base + 1) lo hi rest
  end.

Lemma window_from (A : Type) (l : list A) (base lo hi : Z) :
  lo <= base ->
  window base lo hi l = firstn (Z.to_nat (hi - base)) l.
Proof.
  revert base. induction l as [|x l IH]; intros base Hlo; simpl.
  - now rewrite firstn_nil.
  - replace (lo <=? base) with true by (symmetry; now apply Z.leb_le).
    simpl. destruct (base <? hi) eqn:Ehi.
    + apply Z.ltb_lt in Ehi. rewrite IH by lia.
      replace (Z.to_nat (hi - base)) with (S (Z.to_nat (hi - (base + 1))))
        by lia.
      reflexivity.
    + apply Z.ltb_ge in Ehi. rewrite IH by lia.
      replace (Z.to_nat (hi - (base + 1))) with 0%nat by lia.
      replace (Z.to_nat (hi - base)) with 0%nat by lia.
      reflexivity.
Qed.

Lemma window_skip (A : Type) (l : list A) (base lo hi : Z) :
  base <= lo ->
  window base lo hi l
  = firstn (Z.to_nat (hi - lo)) (skipn (Z.to_nat (lo - base)) l).
Proof.
  revert base. induction l as [|x l IH]; intros base Hlo; simpl.
  - now rewrite skipn_nil, firstn_nil.
  - destruct (Z.eq_dec base lo) as [->|Hne].
    + rewrite Z.sub_diag. simpl skipn.
      rewrite <- (window_from A (x :: l) lo lo hi) by lia.
      reflexivity.
    + replace (lo <=? base) with false by (symmetry; apply Z.leb_gt; lia).
      simpl. rewrite IH by lia.
      replace (Z.to_nat (lo - base)) with (S (Z.to_nat (lo - (base + 1))))
        by lia.
      reflexivity.
Qed.

(** A slice with bounds inside the list is the window between them. *)
Lemma slice_window (A : Type) (l : list A) (lo hi : Z) :
  0 <= lo -> 0 <= hi -> hi <= Z.of_nat (length l) ->
  slice l lo hi = window 0 lo hi l.
Proof.
  intros Hlo Hhi Hlen. rewrite window_skip by lia.
  unfold slice, slice_bound.
  replace (lo <? 0) with false by (symmetry; apply Z.ltb_ge; lia).
  replace (hi <? 0) with false by (symmetry; apply Z.ltb_ge; lia).
  rewrite (Z.min_r _ hi) by lia. rewrite Z.sub_0_r.
  destruct (Z.le_gt_cases lo (Z.of_nat (length l))) as [Hin|Hout].
  - now rewrite Z.min_r by lia.
  - rewrite Z.min_l by lia.
    replace (Z.to_nat (hi - Z.of_nat (length l))) with 0%nat by lia.
    replace (Z.to_nat (hi - lo)) with 0%nat by lia.
    reflexivity.
Qed.

End PyList.

Module PyNum.

Local Open Scope Z_scope.

(** [a / b] on two [int]s.  Python computes a float; the quotient is kept
    exact here. *)
Definition truediv (a b : Z) : Q := (inject_Z a / inject_Z b)%Q.

(** [x < y]. *)
Definition ltb (x y : Q) : bool := negb (Qle_bool y x).

(** [x or 0] for an [Optional[int]]: [None] and [0] are both falsy. *)
Definition or_zero (x : option Z) : Z :=
  match x with
  | Some n => if n =? 0 then 0 else n
  | None => 0
  end.

Lemma ltb_lt (x y : Q) : ltb x y = true <-> (x < y)%Q.
Proof.
  unfold ltb. rewrite negb_true_iff. split.
  - intros H. apply Qnot_le_lt. intros Hle.
    apply Qle_bool_iff in Hle. congruence.
  - intros H. apply not_true_is_false. intros Hle.
    apply Qle_bool_iff in Hle. now apply Qlt_not_le in H.
Qed.

End PyNum.

(** ** SentenceAnnotator: [GreynirCorrect.annotate] *)

Module Annotator.

Local Open Scope Z_scope.
Local Open Scope list_scope.

(** *** Exceptions *)

Inductive exn : Type :=
| AssertionError.

Inductive result (A : Type) : Type :=
| Ok (a : A)
| Raise (e : exn).

Arguments Ok {A} a.
Arguments Raise {A} e.

Definition bind {A B : Type} (r : result A) (k : A -> result B) : result B :=
  match r with
  | Ok a => k a
  | Raise e => Raise e
  end.

(** *** Data model *)

(** The token kinds the annotator tells apart ([TOK.WORD], [TOK.PERSON]);
    every other kind is treated alike. *)
Inductive TokKind : Type :=
| WORD
| PERSON
| PUNCTUATION
| OTHER.

(** The error attributes of a [CorrectToken]. *)
Record ErrorInfo : Type := {
  error_code : string;
  error_span : Z;
  error_description : string
}.

(** A token as the annotator sees it.  [val] holds the lexicon meanings of a
    word, [is_CorrectToken] is [isinstance(t, CorrectToken)] and
    [error_attrs] is present exactly when [hasattr(t, "error_code")]. *)
Record Tok : Type := {
  kind : TokKind;
  txt : string;
  val : list string;
  is_CorrectToken : bool;
  error_attrs : option ErrorInfo
}.

(** [Annotation(start=, end=, code=, text=, detail=)]; [detail] defaults to
    [None]. *)
Record Annotation : Type := {
  start : Z;
  end_ : Z;
  code : string;
  text : string;
  detail : option string
}.

(** The deep tree; the annotator only asks whether there is one. *)
Inductive SimpleTree : Type :=
| Terminal (terminal : string)
| Nonterminal (tag : string) (first_child next_sibling : SimpleTree).

(** [_Sentence]: the tokens, the deep tree if the parse succeeded and,
    otherwise, the position of the token at which the parser gave up. *)
Record Sentence : Type := {
  tokens : list Tok;
  deep_tree : option SimpleTree;
  err_index : option nat
}.

(** Modelled from the spec: [errfinder.py] and [pattern.py] are not among
    the sources at hand.  By the spec each of the two collaborators is
    invoked with the annotation list so far and the sentence, and appends
    zero or more annotations; a collaborator is given here by the
    annotations it appends. *)
Definition Collaborator : Type := list Annotation -> Sentence -> list Annotation.

(** What the annotator takes from outside the module: [ICELANDIC_RATIO] and
    [correct_spaces] are imported from [reynir]; [format_percent x] is the
    text of ["{0:.0f}".format(x)]; [ErrorFinder_go ann sent] and
    [PatternMatcher_go ann sent] stand for [ErrorFinder(ann, sent).go()] and
    [PatternMatcher(ann, sent).go()]. *)
Class Collaborators : Type := {
  ICELANDIC_RATIO : Q;
  correct_spaces : string -> string;
  format_percent : Q -> string;
  ErrorFinder_go : Collaborator;
  PatternMatcher_go : Collaborator
}.

(** *** The token scan (first loop of [annotate]) *)

Record ScanState : Type := {
  ann : list Annotation;
  words_in_bin : Z;
  words_not_in_bin : Z
}.

Definition scan_start : ScanState :=
  {| ann := []; words_in_bin := 0; words_not_in_bin := 0 |}.

(** Truthiness of [t.val]. *)
Definition has_meaning (t : Tok) : bool :=
  match val t with
  | [] => false
  | _ :: _ => true
  end.

(** The counting part of the loop body. *)
Definition count_token (t : Tok) (st : ScanState) : ScanState :=
  match kind t with
  | WORD =>
      if has_meaning t
      then {| ann := ann st;
              words_in_bin := words_in_bin st + 1;
              words_not_in_bin := words_not_in_bin st |}
      else {| ann := ann st;
              words_in_bin := words_in_bin st;
              words_not_in_bin := words_not_in_bin st + 1 |}
  | PERSON =>
      {| ann := ann st;
         words_in_bin := words_in_bin st + 1;
         words_not_in_bin := words_not_in_bin st |}
  | _ => st
  end.

(** The annotation a token with a non-empty error code gives rise to. *)
Definition token_annotation (ix : Z) (e : ErrorInfo) : Annotation :=
  {| start := ix;
     end_ := ix + error_span e - 1;
     code := error_code e;
     text := error_description e;
     detail := None |}.

(** One iteration of [for ix, t in enumerate(sent.tokens)]. *)
Definition scan_token (ix : Z) (t : Tok) (st : ScanState) : result ScanState :=
  let st := count_token t st in
  match error_attrs t with
  | None => Ok st
  | Some e =>
      if is_CorrectToken t then
        if PyStr.truthy (error_code e)
        then Ok {| ann := ann st ++ [token_annotation ix e];
                   words_in_bin := words_in_bin st;
                   words_not_in_bin := words_not_in_bin st |}
        else Ok st
      else Raise AssertionError
  end.

Fixpoint scan_tokens (ix : Z) (ts : list Tok) (st : ScanState)
  : result ScanState :=
  match ts with
  | [] => Ok st
  | t :: rest =>
      bind (scan_token ix t st) (scan_tokens (ix + 1) rest)
  end.

(** *** [ann.sort(key=lambda a: (a.start, -a.end))] *)

Definition sort_key (a : Annotation) : Z * Z := (start a, - end_ a).

(** [k1 <= k2] on key tuples. *)
Definition key_leb (k1 k2 : Z * Z) : bool :=
  (fst k1 <? fst k2) || ((fst k1 =? fst k2) && (snd k1 <=? snd k2)).

(** The sort is stable: an element goes before the first element whose key
    is not smaller than its own, and elements are inserted last to first. *)
Fixpoint insert_by_key (a : Annotation) (l : list Annotation)
  : list Annotation :=
  match l with
  | [] => [a]
  | b :: rest =>
      if key_leb (sort_key a) (sort_key b)
      then a :: b :: rest
      else b :: insert_by_key a rest
  end.

Fixpoint sort_annotations (l : list Annotation) : list Annotation :=
  match l with
  | [] => []
  | a :: rest => insert_by_key a (sort_annotations rest)
  end.

(** *** The sentence-level decision *)

Section Annotate.

Context `{C : Collaborators}.

Definition num_words (st : ScanState) : Z :=
  words_in_bin st + words_not_in_bin st.

(** [num_words > 2 and words_in_bin / num_words < ICELANDIC_RATIO]; the
    division is only reached when [num_words > 2]. *)
Definition foreign_guard (st : ScanState) : bool :=
  (2 <? num_words st)
  && PyNum.ltb (PyNum.truediv (words_in_bin st) (num_words st)) ICELANDIC_RATIO.

Definition token_count (sent : Sentence) : Z := Z.of_nat (length (tokens sent)).

(** E004: the sentence is probably not in Icelandic. *)
Definition E004_annotation (sent : Sentence) (st : ScanState) : Annotation :=
  {| start := 0;
     end_ := token_count sent - 1;
     code := "E004";
     text := "Málsgreinin er sennilega ekki á íslensku";
     detail :=
       Some (format_percent
               (PyNum.truediv (words_not_in_bin st) (num_words st) * 100)%Q
             +:+ "% orða í henni finnast ekki í íslenskri orðabók") |}.

(** [err_index], [start], [end] and [toktext] of the parse-failure branch. *)
Definition failure_index (sent : Sentence) : Z :=
  PyNum.or_zero (option_map Z.of_nat (err_index sent)).

Definition failure_start (sent : Sentence) : Z :=
  Z.max 0 (failure_index sent - 1).

Definition failure_end (sent : Sentence) : Z :=
  Z.min (token_count sent) (failure_index sent + 2).

Definition failure_toktext (sent : Sentence) : string :=
  correct_spaces
    (PyStr.join " "
       (map txt
          (List.filter (fun t => PyStr.truthy (txt t))
             (PyList.slice (tokens sent) (failure_start sent) (failure_end sent))))).

(** E001: unable to parse the sentence. *)
Definition E001_annotation (sent : Sentence) : Annotation :=
  {| start := 0;
     end_ := token_count sent - 1;
     code := "E001";
     text := "Málsgreinin fellur ekki að reglum";
     detail :=
       Some ("Þáttun brást í kring um "
             +:+ PyStr.str_of_int (failure_index sent + 1)
             +:+ ". tóka ('" +:+ failure_toktext sent +:+ "')") |}.

(** The three branches of the [if]/[elif]/[else]. *)
Inductive Path : Type :=
| E004_path
| E001_path
| Success_path.

Definition sentence_path (sent : Sentence) (st : ScanState) : Path :=
  if foreign_guard st then E004_path
  else match deep_tree sent with
       | None => E001_path
       | Some _ => Success_path
       end.

(** The annotation list on leaving the branch, before the final sort. *)
Definition path_annotations (p : Path) (sent : Sentence) (st : ScanState)
  : list Annotation :=
  match p with
  | E004_path => [E004_annotation sent st]
  | E001_path => ann st ++ [E001_annotation sent]
  | Success_path =>
      let ann1 := ann st ++ ErrorFinder_go (ann st) sent in
      ann1 ++ PatternMatcher_go ann1 sent
  end.

(** [GreynirCorrect.annotate], together with the branch it took. *)
Definition annotate_traced (sent : Sentence)
  : result (Path * list Annotation) :=
  bind (scan_tokens 0 (tokens sent) scan_start) (fun st =>
    let p := sentence_path sent st in
    Ok (p, sort_annotations (path_annotations p sent st))).

(** [GreynirCorrect.annotate]. *)
Definition annotate (sent : Sentence) : result (list Annotation) :=
  bind (annotate_traced sent) (fun r => Ok (snd r)).

End Annotate.

(** *** Reading the scan off the token list

    The counters and the annotations the loop accumulates, written as
    functions of the token list. *)

(** A word with a meaning, or a person name. *)
Definition is_recognized (t : Tok) : bool :=
  match kind t with
  | WORD => has_meaning t
  | PERSON => true
  | _ => false
  end.

(** A word without any meaning. *)
Definition is_unrecognized (t : Tok) : bool :=
  match kind t with
  | WORD => negb (has_meaning t)
  | _ => false
  end.

Definition recognized (ts : list Tok) : Z :=
  Z.of_nat (length (List.filter is_recognized ts)).

Definition unrecognized (ts : list Tok) : Z :=
  Z.of_nat (length (List.filter is_unrecognized ts)).

(** What the token at position [ix] contributes to the annotation list. *)
Definition emitted (ix : Z) (t : Tok) : list Annotation :=
  match error_attrs t with
  | Some e => if PyStr.truthy (error_code e) then [token_annotation ix e] else []
  | None => []
  end.

Fixpoint token_annotations (ix : Z) (ts : list Tok) : list Annotation :=
  match ts with
  | [] => []
  | t :: rest => emitted ix t ++ token_annotations (ix + 1) rest
  end.

(** The pipeline's contract on a token: error attributes only on a
    [CorrectToken]. *)
Definition honours_contract (t : Tok) : bool :=
  match error_attrs t with
  | Some _ => is_CorrectToken t
  | None => true
  end.

Definition well_formed (sent : Sentence) : Prop :=
  forallb honours_contract (tokens sent) = true.

(** The scan state a well-formed token list leads to. *)
Definition scanned (ts : list Tok) : ScanState :=
  {| ann := token_annotations 0 ts;
     words_in_bin := recognized ts;
     words_not_in_bin := unrecognized ts |}.

(** The foreign-language condition on a token list: more than two
    word-like tokens, and the recognized share below the minimum ratio. *)
Definition looks_foreign `{C : Collaborators} (ts : list Tok) : Prop :=
  2 < recognized ts + unrecognized ts
  /\ (PyNum.truediv (recognized ts) (recognized ts + unrecognized ts)
       < ICELANDIC_RATIO)%Q.

(** The order the final sort establishes: ascending [start], and for equal
    [start] descending [end]. *)
Definition precedes (a b : Annotation) : Prop :=
  start a < start b \/ (start a = start b /\ end_ b <= end_ a).

(** [sent] with its error index replaced. *)
Definition with_err_index (sent : Sentence) (e : option nat) : Sentence :=
  {| tokens := tokens sent; deep_tree := deep_tree sent; err_index := e |}.

(** In the spec's words: the texts one after another, a single space
    between two neighbours. *)
Fixpoint spaced (parts : list string) : string :=
  match parts with
  | [] => ""
  | x :: rest =>
      match rest with
      | [] => x
      | _ :: _ => x +:+ " " +:+ spaced rest
      end
  end.

(** *** A sample configuration to run the annotator on *)

(** [correct_spaces] stand-in: the text is left as it is. *)
Definition demo_collaborators : Collaborators := {|
  ICELANDIC_RATIO := 1 # 2;
  correct_spaces := fun s => s;
  format_percent := fun x => PyStr.str_of_int (Qfloor (x + (1 # 2)));
  ErrorFinder_go := fun _ _ => [];
  PatternMatcher_go := fun _ _ => []
|}.

Definition word (t : string) (meanings : list string) : Tok :=
  {| kind := WORD; txt := t; val := meanings;
     is_CorrectToken := true;
     error_attrs := Some {| error_code := ""; error_span := 0;
                            error_description := "" |} |}.

Definition misspelt (t : string) (meanings : list string)
  (c : string) (span : Z) (descr : string) : Tok :=
  {| kind := WORD; txt := t; val := meanings;
     is_CorrectToken := true;
     error_attrs := Some {| error_code := c; error_span := span;
                            error_description := descr |} |}.

Definition punct (t : string) : Tok :=
  {| kind := PUNCTUATION; txt := t; val := [];
     is_CorrectToken := false; error_attrs := None |}.

(** Five tokens, no parse, the parser gave up at the first token. *)
Definition demo_unparsed : Sentence :=
  {| tokens := [misspelt "Eg" ["ég"] "S004" 1 "Orðið 'Eg' var leiðrétt í 'Ég'";
                word "fer" ["fara"]; word "heim" ["heim"];
                word "núna" ["núna"]; punct "."];
     deep_tree := None;
     err_index := Some 0%nat |}.

(** The same five tokens, the parser gave up at the third token. *)
Definition demo_unparsed_inner : Sentence :=
  {| tokens := tokens demo_unparsed;
     deep_tree := None;
     err_index := Some 2%nat |}.

(** Three word-like tokens, two of them unknown. *)
Definition demo_foreign : Sentence :=
  {| tokens := [misspelt "the" [] "U001" 1 "Óþekkt orð: 'the'";
                word "quick" []; word "fox" ["fox"]; punct "."];
     deep_tree := None;
     err_index := Some 1%nat |}.

(** Two word-like tokens, both unknown. *)
Definition demo_two_words : Sentence :=
  {| tokens := [misspelt "hello" [] "U001" 1 "Óþekkt orð: 'hello'";
                word "world" []; punct "."];
     deep_tree := None;
     err_index := None |}.

(** A parsed sentence with two token-level annotations on one start. *)
Definition demo_parsed : Sentence :=
  {| tokens := [misspelt "Ég" ["ég"] "C002" 1 "Stafsetning";
                misspelt "fer" ["fara"] "P_WRONG" 2 "Orðasamband";
                word "heim" ["heim"]; punct "."];
     deep_tree := Some (Nonterminal "S0" (Terminal "pfn") (Terminal "so"));
     err_index := None |}.

(** A plain token that exposes error attributes: a broken pipeline. *)
Definition demo_broken : Sentence :=
  {| tokens := [word "Ég" ["ég"];
                {| kind := WORD; txt := "fer"; val := ["fara"];
                   is_CorrectToken := false;
                   error_attrs := Some {| error_code := "S004"; error_span := 1;
                                          error_description := "?" |} |}];
     deep_tree := None;
     err_index := None |}.

(** *** The token scan *)

Lemma scan_token_ok (ix : Z) (t : Tok) (st : ScanState) :
  honours_contract t = true ->
  scan_token ix t st
  = Ok {| ann := ann st ++ emitted ix t;
          words_in_bin := words_in_bin st + (if is_recognized t then 1 else 0);
          words_not_in_bin :=
            words_not_in_bin st + (if is_unrecognized t then 1 else 0) |}.
Proof.
  unfold honours_contract, scan_token, emitted, count_token,
    is_recognized, is_unrecognized.
  destruct st as [a wi wn]; simpl.
  destruct (error_attrs t) as [e|]; [intros ->|intros _];
    destruct (kind t); try destruct (has_meaning t); simpl;
    try destruct (PyStr.truthy (error_code e)); simpl;
    rewrite ?app_nil_r, ?Z.add_0_r; reflexivity.
Qed.

Lemma scan_token_raises (ix : Z) (t : Tok) (st : ScanState) :
  honours_contract t = false ->
  scan_token ix t st = Raise AssertionError.
Proof.
  unfold honours_contract, scan_token.
  destruct (error_attrs t); [intros ->; reflexivity | discriminate].
Qed.

Lemma filter_length_cons {A : Type} (f : A -> bool) (x : A) (l : list A) :
  Z.of_nat (length (List.filter f (x :: l)))
  = (if f x then 1 else 0) + Z.of_nat (length (List.filter f l)).
Proof. simpl. destruct (f x); simpl length; lia. Qed.

Lemma scan_tokens_ok (ts : list Tok) (ix : Z) (st : ScanState) :
  forallb honours_contract ts = true ->
  scan_tokens ix ts st
  = Ok {| ann := ann st ++ token_annotations ix ts;
          words_in_bin := words_in_bin st + recognized ts;
          words_not_in_bin := words_not_in_bin st + unrecognized ts |}.
Proof.
  revert ix st. induction ts as [|t ts IH]; intros ix st Hwf.
  - destruct st; simpl. unfold recognized, unrecognized; simpl.
    now rewrite app_nil_r, !Z.add_0_r.
  - simpl in Hwf. apply andb_true_iff in Hwf as [Ht Hts].
    simpl. rewrite (scan_token_ok _ _ _ Ht). simpl.
    rewrite (IH _ _ Hts). simpl. unfold recognized, unrecognized.
    rewrite !filter_length_cons, <- app_assoc, !Z.add_assoc. reflexivity.
Qed.

Lemma scan_tokens_raises (ts : list Tok) (ix : Z) (st : ScanState) :
  forallb honours_contract ts = false ->
  scan_tokens ix ts st = Raise AssertionError.
Proof.
  revert ix st. induction ts as [|t ts IH]; intros ix st Hwf; [discriminate|].
  simpl in Hwf. simpl. destruct (honours_contract t) eqn:Ht.
  - rewrite (scan_token_ok _ _ _ Ht). simpl. now apply IH.
  - now rewrite (scan_token_raises _ _ _ Ht).
Qed.

Lemma scan_well_formed (sent : Sentence) :
  well_formed sent ->
  scan_tokens 0 (tokens sent) scan_start = Ok (scanned (tokens sent)).
Proof. intros Hwf. now rewrite (scan_tokens_ok _ _ _ Hwf). Qed.

(** *** The final sort *)

Lemma key_leb_precedes (a b : Annotation) :
  key_leb (sort_key a) (sort_key b) = true <-> precedes a b.
Proof.
  unfold key_leb, sort_key, precedes; simpl.
  rewrite orb_true_iff, andb_true_iff, Z.ltb_lt, Z.eqb_eq, Z.leb_le. lia.
Qed.

Lemma key_leb_total (a b : Annotation) :
  key_leb (sort_key a) (sort_key b) = false -> precedes b a.
Proof.
  intros H. destruct (key_leb (sort_key b) (sort_key a)) eqn:E.
  - now apply key_leb_precedes.
  - exfalso. revert H E. unfold key_leb, sort_key; simpl.
    rewrite !orb_false_iff, !andb_false_iff, !Z.ltb_ge, !Z.eqb_neq, !Z.leb_gt.
    lia.
Qed.

Lemma precedes_trans (a b c : Annotation) :
  precedes a b -> precedes b c -> precedes a c.
Proof. unfold precedes. lia. Qed.

Lemma insert_by_key_perm (a : Annotation) (l : list Annotation) :
  Permutation (insert_by_key a l) (a :: l).
Proof.
  induction l as [|b l IH]; simpl; [reflexivity|].
  destruct (key_leb (sort_key a) (sort_key b)); [reflexivity|].
  rewrite IH. apply perm_swap.
Qed.

Lemma sort_annotations_perm (l : list Annotation) :
  Permutation (sort_annotations l) l.
Proof.
  induction l as [|a l IH]; simpl; [reflexivity|].
  rewrite insert_by_key_perm. now apply perm_skip.
Qed.

Lemma insert_by_key_sorted (a : Annotation) (l : list Annotation) :
  StronglySorted precedes l -> StronglySorted precedes (insert_by_key a l).
Proof.
  induction 1 as [|b l Hs IH Hb]; simpl.
  - repeat constructor.
  - destruct (key_leb (sort_key a) (sort_key b)) eqn:E.
    + apply key_leb_precedes in E. constructor.
      * now constructor.
      * constructor; [exact E|].
        eapply List.Forall_impl; [|exact Hb].
        intros c Hc. now apply (precedes_trans a b c).
    + apply key_leb_total in E. constructor; [exact IH|].
      eapply Permutation_Forall.
      * symmetry. apply insert_by_key_perm.
      * now constructor.
Qed.

Lemma sort_annotations_sorted (l : list Annotation) :
  StronglySorted precedes (sort_annotations l).
Proof.
  induction l as [|a l IH]; simpl; [constructor|].
  now apply insert_by_key_sorted.
Qed.

(** The sort is stable: annotations with one and the same key keep the
    order they had, so the result is the one any stable sort returns. *)
Lemma insert_by_key_stable (k : Z * Z) (a : Annotation) (l : list Annotation) :
  List.filter (fun x => bool_decide (sort_key x = k)) (insert_by_key a l)
  = List.filter (fun x => bool_decide (sort_key x = k)) (a :: l).
Proof.
  induction l as [|b l IH]; [reflexivity|]. simpl insert_by_key.
  destruct (key_leb (sort_key a) (sort_key b)) eqn:E; [reflexivity|].
  simpl. simpl in IH. rewrite IH.
  destruct (bool_decide (sort_key a = k)) eqn:Ea;
    destruct (bool_decide (sort_key b = k)) eqn:Eb; try reflexivity.
  apply bool_decide_eq_true in Ea, Eb.
  rewrite Ea, Eb in E. unfold key_leb in E.
  rewrite Z.eqb_refl, Z.leb_refl, orb_true_r in E. discriminate.
Qed.

Lemma sort_annotations_stable (k : Z * Z) (l : list Annotation) :
  List.filter (fun x => bool_decide (sort_key x = k)) (sort_annotations l)
  = List.filter (fun x => bool_decide (sort_key x = k)) l.
Proof.
  induction l as [|a l IH]; [reflexivity|]. simpl sort_annotations.
  rewrite insert_by_key_stable. simpl. now rewrite IH.
Qed.

(** In a strongly sorted list an earlier element precedes a later one. *)
Lemma sorted_positions (l : list Annotation) (i j : nat) (a b : Annotation) :
  StronglySorted precedes l ->
  (i < j)%nat -> nth_error l i = Some a -> nth_error l j = Some b ->
  precedes a b.
Proof.
  intros Hs. revert i j. induction Hs as [|c l Hs IH Hc]; intros i j Hij Hi Hj.
  - destruct i; discriminate.
  - destruct j as [|j]; [lia|]. simpl in Hj.
    destruct i as [|i]; simpl in Hi.
    + inversion Hi; subst. rewrite List.Forall_forall in Hc.
      apply Hc. eapply nth_error_In; eauto.
    + apply (IH i j); auto. lia.
Qed.

(** *** The foreign-language guard, read off the token list *)

Lemma foreign_guard_scanned `{C : Collaborators} (ts : list Tok) :
  foreign_guard (scanned ts) = true
  <-> 2 < recognized ts + unrecognized ts
      /\ (PyNum.truediv (recognized ts) (recognized ts + unrecognized ts)
           < ICELANDIC_RATIO)%Q.
Proof.
  unfold foreign_guard, num_words; simpl.
  now rewrite andb_true_iff, Z.ltb_lt, PyNum.ltb_lt.
Qed.

Lemma annotate_traced_well_formed `{C : Collaborators} (sent : Sentence) :
  well_formed sent ->
  annotate_traced sent
  = Ok (sentence_path sent (scanned (tokens sent)),
        sort_annotations
          (path_annotations (sentence_path sent (scanned (tokens sent)))
             sent (scanned (tokens sent)))).
Proof.
  intros Hwf. unfold annotate_traced. now rewrite (scan_well_formed _ Hwf).
Qed.

Lemma annotate_of_traced `{C : Collaborators} (sent : Sentence)
  (p : Path) (out : list Annotation) :
  annotate_traced sent = Ok (p, out) -> annotate sent = Ok out.
Proof. unfold annotate. now intros ->. Qed.

Lemma sentence_path_cases `{C : Collaborators} (sent : Sentence) :
  let p := sentence_path sent (scanned (tokens sent)) in
  (p = E004_path <-> looks_foreign (tokens sent))
  /\ (p = E001_path <-> ~ looks_foreign (tokens sent) /\ deep_tree sent = None)
  /\ (p = Success_path
      <-> ~ looks_foreign (tokens sent) /\ deep_tree sent <> None).
Proof.
  unfold sentence_path.
  change (looks_foreign (tokens sent))
    with (2 < recognized (tokens sent) + unrecognized (tokens sent)
          /\ (PyNum.truediv (recognized (tokens sent))
                (recognized (tokens sent) + unrecognized (tokens sent))
              < ICELANDIC_RATIO)%Q).
  rewrite <- foreign_guard_scanned.
  destruct (foreign_guard (scanned (tokens sent))); simpl.
  - repeat split; try discriminate; auto; intros [H _]; now destruct H.
  - destruct (deep_tree sent); repeat split;
      try discriminate; try congruence; intros [_ H]; congruence.
Qed.

Lemma token_annotations_detail (ts : list Tok) (ix : Z) (a : Annotation) :
  In a (token_annotations ix ts) -> detail a = None.
Proof.
  revert ix. induction ts as [|t ts IH]; intros ix; simpl; [tauto|].
  rewrite in_app_iff. intros [H|H]; [|now apply (IH (ix + 1))].
  unfold emitted in H. destruct (error_attrs t) as [e|]; [|destruct H].
  destruct (PyStr.truthy (error_code e)); [|destruct H].
  destruct H as [<-|[]]. reflexivity.
Qed.

Lemma token_annotations_start (ts : list Tok) (ix : Z) (a : Annotation) :
  In a (token_annotations ix ts) -> ix <= start a.
Proof.
  revert ix. induction ts as [|t ts IH]; intros ix; simpl; [tauto|].
  rewrite in_app_iff. intros [H|H]; [|apply IH in H; lia].
  unfold emitted in H. destruct (error_attrs t) as [e|]; [|destruct H].
  destruct (PyStr.truthy (error_code e)); [|destruct H].
  destruct H as [<-|[]]. simpl. lia.
Qed.

Lemma filter_none {A : Type} (f : A -> bool) (l : list A) :
  (forall x, In x l -> f x = false) -> List.filter f l = [].
Proof.
  induction l as [|x l IH]; intros H; simpl; [reflexivity|].
  rewrite (H x) by now left. apply IH. intros y Hy. apply H. now right.
Qed.

Lemma filter_all {A : Type} (f : A -> bool) (l : list A) :
  (forall x, In x l -> f x = true) -> List.filter f l = l.
Proof.
  induction l as [|x l IH]; intros H; simpl; [reflexivity|].
  rewrite (H x) by now left. f_equal. apply IH. intros y Hy. apply H. now right.
Qed.

Lemma emitted_start (ix : Z) (t : Tok) (a : Annotation) :
  In a (emitted ix t) -> start a = ix.
Proof.
  unfold emitted. destruct (error_attrs t) as [e|]; [|intros []].
  destruct (PyStr.truthy (error_code e)); [|intros []].
  now intros [<-|[]].
Qed.

(** The annotations that start at position [ix + i] are the ones the token
    at offset [i] emitted. *)
Lemma token_annotations_at (ts : list Tok) (ix : Z) (i : nat) :
  List.filter (fun a => start a =? ix + Z.of_nat i) (token_annotations ix ts)
  = match nth_error ts i with
    | Some t => emitted (ix + Z.of_nat i) t
    | None => []
    end.
Proof.
  revert ix i. induction ts as [|t ts IH]; intros ix i.
  - now destruct i.
  - simpl token_annotations. rewrite List.filter_app. destruct i as [|i].
    + simpl nth_error. rewrite Z.add_0_r. rewrite filter_all.
      * rewrite filter_none; [now rewrite app_nil_r|].
        intros a Ha. apply token_annotations_start in Ha.
        apply Z.eqb_neq. lia.
      * intros a Ha. apply emitted_start in Ha. now apply Z.eqb_eq.
    + simpl nth_error. rewrite filter_none.
      * replace (ix + Z.of_nat (S i)) with (ix + 1 + Z.of_nat i) by lia.
        apply IH.
      * intros a Ha. apply emitted_start in Ha. apply Z.eqb_neq. lia.
Qed.

(** *** The sentence-level paths *)

(** C1.  On a sentence whose tokens honour the pipeline's contract,
    [annotate] returns, and exactly one of the three sentence-level paths
    runs: the E004 path when the sentence looks foreign, otherwise the E001
    path when there is no deep tree and the successful-parse path when there
    is one.  On the E004 path the output is the E004 annotation alone and
    contains none of the token-scan annotations; on the other two paths the
    output is a rearrangement of the token-scan annotations followed by what
    the path appended, so every token-scan annotation is in it. *)
Theorem annotate_takes_one_path `{C : Collaborators} (sent : Sentence) :
  well_formed sent ->
  let scan := token_annotations 0 (tokens sent) in
  exists (p : Path) (out : list Annotation),
    annotate_traced sent = Ok (p, out)
    /\ annotate sent = Ok out
    /\ (p = E004_path <-> looks_foreign (tokens sent))
    /\ (p = E001_path
        <-> ~ looks_foreign (tokens sent) /\ deep_tree sent = None)
    /\ (p = Success_path
        <-> ~ looks_foreign (tokens sent) /\ deep_tree sent <> None)
    /\ (p = E004_path ->
        out = [E004_annotation sent (scanned (tokens sent))]
        /\ forall a, In a scan -> ~ In a out)
    /\ (p = E001_path -> Permutation out (scan ++ [E001_annotation sent]))
    /\ (p = Success_path ->
        Permutation out
          (scan ++ ErrorFinder_go scan sent
             ++ PatternMatcher_go (scan ++ ErrorFinder_go scan sent) sent))
    /\ (p <> E004_path -> forall a, In a scan -> In a out).
Proof.
  intros Hwf scan.
  pose proof (annotate_traced_well_formed sent Hwf) as Ht.
  pose proof (sentence_path_cases sent) as (H4 & H1 & Hs).
  set (p := sentence_path sent (scanned (tokens sent))) in *.
  set (out := sort_annotations
                (path_annotations p sent (scanned (tokens sent)))) in *.
  assert (Hperm : Permutation out
                    (path_annotations p sent (scanned (tokens sent))))
    by apply sort_annotations_perm.
  exists p, out. split; [exact Ht|]. split; [exact (annotate_of_traced _ _ _ Ht)|].
  split; [exact H4|]. split; [exact H1|]. split; [exact Hs|].
  split; [|split; [|split]].
  - intros Hp. subst out. rewrite Hp. simpl. split; [reflexivity|].
    intros a Ha [<-|[]]. apply token_annotations_detail in Ha. discriminate.
  - intros Hp. rewrite Hp in Hperm. exact Hperm.
  - intros Hp. rewrite Hp in Hperm. simpl in Hperm.
    rewrite <- app_assoc in Hperm. exact Hperm.
  - intros Hp a Ha. apply (Permutation_in a (symmetry Hperm)).
    destruct p; [congruence | |]; simpl; rewrite ?in_app_iff; auto.
Qed.

Lemma annotate_takes_one_path_witness :
  well_formed demo_unparsed
  /\ exists out : list Annotation,
      annotate (C := demo_collaborators) demo_unparsed = Ok out
      /\ forall a, In a (token_annotations 0 (tokens demo_unparsed)) -> In a out.
Proof.
  split; [reflexivity|].
  destruct (annotate_takes_one_path (C := demo_collaborators)
              demo_unparsed eq_refl)
    as (p & out & _ & Hout & _ & H1 & _ & _ & _ & _ & Hkeep).
  exists out. split; [exact Hout|]. apply Hkeep.
  intros Hp.
  assert (Hp1 : p = E001_path).
  { apply H1. split; [|reflexivity]. intros [_ Hlt]. vm_compute in Hlt.
    discriminate. }
  congruence.
Defined.



(** Two unknown words out of two: the ratio is 0, yet the guard stays shut. *)
Example two_words_are_not_foreign :
  sentence_path (C := demo_collaborators) demo_two_words
    (scanned (tokens demo_two_words))
  = E001_path.
Proof. vm_compute. reflexivity. Qed.

(** Two unknown words out of three: the guard fires. *)
Example two_of_three_unknown_is_foreign :
  sentence_path (C := demo_collaborators) demo_foreign
    (scanned (tokens demo_foreign))
  = E004_path.
Proof. vm_compute. reflexivity. Qed.

(** *** The parse-failure path *)

Lemma failure_index_nonneg (sent : Sentence) : 0 <= failure_index sent.
Proof.
  unfold failure_index, PyNum.or_zero.
  destruct (err_index sent) as [e|]; simpl; [|lia].
  destruct (Z.of_nat e =? 0); lia.
Qed.

Lemma failure_slice_window (sent : Sentence) :
  PyList.slice (tokens sent) (failure_start sent) (failure_end sent)
  = PyList.window 0 (Z.max 0 (failure_index sent - 1))
      (Z.min (token_count sent) (failure_index sent + 2)) (tokens sent).
Proof.
  pose proof (failure_index_nonneg sent) as He.
  unfold failure_start, failure_end, token_count.
  apply PyList.slice_window; lia.
Qed.

Lemma failure_index_reads_err_index (sent : Sentence) :
  failure_index sent
  = match err_index sent with
    | Some k => Z.of_nat k
    | None => 0
    end.
Proof.
  unfold failure_index, PyNum.or_zero.
  destruct (err_index sent) as [k|]; simpl; [|reflexivity].
  destruct (Z.of_nat k =? 0) eqn:E; [|reflexivity].
  apply Z.eqb_eq in E. now rewrite E.
Qed.

Lemma join_spaced (parts : list string) : PyStr.join " " parts = spaced parts.
Proof.
  unfold PyStr.join. induction parts as [|x rest IH]; [reflexivity|].
  destruct rest as [|y rest]; [reflexivity|].
  change (x +:+ " " +:+ String.concat " " (y :: rest)
          = x +:+ " " +:+ spaced (y :: rest)).
  now rewrite IH.
Qed.

(** C3.  On a sentence that does not look foreign and has no deep tree, let
    [e] be its error index ([err_index], 0 when that is [None]).  [annotate]
    takes the E001 path: the output is a rearrangement of the token-scan
    annotations and exactly one further annotation, from token 0 to the last
    token with code E001, whose detail names token [e + 1] and quotes the
    non-empty texts of the tokens at positions
    [max 0 (e - 1) <= i < min n (e + 2)], a single space between two of
    them, passed through [correct_spaces].  For five tokens and [e = 0] the
    quoted tokens are the first two. *)
Theorem parse_failure_annotation `{C : Collaborators} (sent : Sentence) :
  well_formed sent ->
  ~ looks_foreign (tokens sent) ->
  deep_tree sent = None ->
  let n := Z.of_nat (length (tokens sent)) in
  let e := match err_index sent with
           | Some k => Z.of_nat k
           | None => 0
           end in
  let quoted :=
    firstn (Z.to_nat (Z.min n (e + 2) - Z.max 0 (e - 1)))
      (skipn (Z.to_nat (Z.max 0 (e - 1))) (tokens sent)) in
  let e001 :=
    {| start := 0;
       end_ := n - 1;
       code := "E001";
       text := "Málsgreinin fellur ekki að reglum";
       detail :=
         Some ("Þáttun brást í kring um " +:+ PyStr.str_of_int (e + 1)
               +:+ ". tóka ('"
               +:+ correct_spaces
                     (spaced
                        (map txt
                           (List.filter (fun t => PyStr.truthy (txt t)) quoted)))
               +:+ "')") |} in
  exists out : list Annotation,
    annotate_traced sent = Ok (E001_path, out)
    /\ annotate sent = Ok out
    /\ Permutation out (token_annotations 0 (tokens sent) ++ [e001])
    /\ length out = S (length (token_annotations 0 (tokens sent)))
    /\ length quoted = Z.to_nat (Z.min n (e + 2) - Z.max 0 (e - 1))
    /\ (forall (i : nat) (t : Tok),
          nth_error (tokens sent) i = Some t ->
          Z.max 0 (e - 1) <= Z.of_nat i < Z.min n (e + 2) ->
          nth_error quoted (i - Z.to_nat (Z.max 0 (e - 1))) = Some t)
    /\ (n = 5 -> e = 0 -> quoted = firstn 2 (tokens sent)).
Proof.
  intros Hwf Hnf Hdt n e quoted e001.
  pose proof (annotate_traced_well_formed sent Hwf) as Ht.
  pose proof (sentence_path_cases sent) as (_ & H1 & _).
  assert (Hp : sentence_path sent (scanned (tokens sent)) = E001_path)
    by (apply H1; now split).
  rewrite Hp in Ht.
  assert (He : failure_index sent = e) by apply failure_index_reads_err_index.
  assert (He0 : 0 <= e) by (unfold e; destruct (err_index sent); lia).
  assert (Hq : PyList.window 0 (Z.max 0 (e - 1)) (Z.min n (e + 2))
                 (tokens sent)
               = quoted).
  { rewrite PyList.window_skip by lia. now rewrite Z.sub_0_r. }
  assert (He001 : E001_annotation sent = e001).
  { unfold E001_annotation, failure_toktext.
    rewrite (failure_slice_window sent), join_spaced.
    unfold failure_start, failure_end. rewrite He.
    change (token_count sent) with n. rewrite Hq. reflexivity. }
  simpl path_annotations in Ht. rewrite He001 in Ht.
  eexists. split; [exact Ht|]. split; [exact (annotate_of_traced _ _ _ Ht)|].
  assert (Hperm := sort_annotations_perm
                     (token_annotations 0 (tokens sent) ++ [e001])).
  split; [exact Hperm|]. split; [|split; [|split]].
  - rewrite (Permutation_length Hperm), length_app. simpl. lia.
  - unfold quoted. rewrite length_firstn, length_skipn. fold n. unfold n. lia.
  - intros i t Hi Hin. unfold quoted.
    rewrite nth_error_firstn.
    destruct (Nat.ltb_spec (i - Z.to_nat (Z.max 0 (e - 1)))
                (Z.to_nat (Z.min n (e + 2) - Z.max 0 (e - 1))));
      [|lia].
    rewrite nth_error_skipn. rewrite <- Hi. f_equal. lia.
  - intros Hn H0. unfold quoted. rewrite H0, Hn. reflexivity.
Qed.

Lemma parse_failure_annotation_witness :
  exists out : list Annotation,
    annotate (C := demo_collaborators) demo_unparsed_inner = Ok out
    /\ In {| start := 0;
             end_ := 4;
             code := "E001";
             text := "Málsgreinin fellur ekki að reglum";
             detail :=
               Some "Þáttun brást í kring um 3. tóka ('fer heim núna')" |}
         out.
Proof.
  assert (Hnf : ~ looks_foreign (C := demo_collaborators)
                  (tokens demo_unparsed_inner)).
  { intros [_ Hlt]. vm_compute in Hlt. discriminate. }
  destruct (parse_failure_annotation (C := demo_collaborators)
              demo_unparsed_inner eq_refl Hnf eq_refl)
    as (out & _ & Hout & Hperm & _).
  exists out. split; [exact Hout|].
  apply (Permutation_in _ (symmetry Hperm)).
  apply in_app_iff. right. left. vm_compute. reflexivity.
Defined.

(** *** The order of the output *)

(** C4.  The list [annotate] returns is sorted: of two annotations in it,
    the earlier one has the smaller start, or the same start and an end that
    is not smaller.  Off the E004 path nothing is removed: on the E001 path
    the returned list is a rearrangement of the token-scan annotations and
    the E001 annotation, on the successful-parse path of the token-scan
    annotations followed by what [ErrorFinder] and then [PatternMatcher]
    appended, each annotation as often as it was there. *)
Theorem annotate_output_sorted `{C : Collaborators} (sent : Sentence) :
  well_formed sent ->
  let scan := token_annotations 0 (tokens sent) in
  exists (p : Path) (out : list Annotation),
    annotate_traced sent = Ok (p, out)
    /\ annotate sent = Ok out
    /\ StronglySorted precedes out
    /\ (forall (i j : nat) (a b : Annotation),
          (i < j)%nat -> nth_error out i = Some a -> nth_error out j = Some b ->
          start a <= start b /\ (start a = start b -> end_ b <= end_ a))
    /\ (forall (i j : nat) (a b : Annotation),
          nth_error out i = Some a -> nth_error out j = Some b ->
          start a = start b -> end_ b < end_ a -> (i < j)%nat)
    /\ (p = E001_path ->
        Permutation out (scan ++ [E001_annotation sent])
        /\ length out = S (length scan))
    /\ (p = Success_path ->
        let found := ErrorFinder_go scan sent in
        let matched := PatternMatcher_go (scan ++ found) sent in
        Permutation out (scan ++ found ++ matched)
        /\ length out = (length scan + length found + length matched)%nat)
    /\ (p <> E004_path -> p = E001_path \/ p = Success_path).
Proof.
  intros Hwf scan.
  pose proof (annotate_traced_well_formed sent Hwf) as Ht.
  set (p := sentence_path sent (scanned (tokens sent))) in *.
  set (out := sort_annotations
                (path_annotations p sent (scanned (tokens sent)))) in *.
  assert (Hsorted : StronglySorted precedes out)
    by apply sort_annotations_sorted.
  exists p, out. split; [exact Ht|]. split; [exact (annotate_of_traced _ _ _ Ht)|].
  assert (Hperm : Permutation out
                    (path_annotations p sent (scanned (tokens sent))))
    by apply sort_annotations_perm.
  split; [exact Hsorted|]. split; [|split; [|split; [|split]]].
  - intros i j a b Hij Hi Hj.
    pose proof (sorted_positions out i j a b Hsorted Hij Hi Hj) as Hab.
    unfold precedes in Hab. lia.
  - intros i j a b Hi Hj Hst Hend.
    destruct (Nat.lt_trichotomy i j) as [Hlt|[Heq|Hgt]]; [exact Hlt| |].
    + subst j. rewrite Hi in Hj. inversion Hj; subst. lia.
    + pose proof (sorted_positions out j i b a Hsorted Hgt Hj Hi) as Hba.
      unfold precedes in Hba. lia.
  - intros Hp. subst scan. rewrite Hp in Hperm. simpl in Hperm.
    split; [exact Hperm|].
    rewrite (Permutation_length Hperm), length_app. simpl. lia.
  - intros Hp found matched. subst found matched scan.
    rewrite Hp in Hperm. simpl in Hperm.
    rewrite <- app_assoc in Hperm. split; [exact Hperm|].
    rewrite (Permutation_length Hperm), !length_app. lia.
  - intros Hp. destruct p; [congruence | now left | now right].
Qed.

Lemma annotate_output_sorted_witness :
  exists out : list Annotation,
    annotate (C := demo_collaborators) demo_parsed = Ok out
    /\ StronglySorted precedes out
    /\ Permutation out
         (token_annotations 0 (tokens demo_parsed)
          ++ ErrorFinder_go (Collaborators := demo_collaborators)
               (token_annotations 0 (tokens demo_parsed)) demo_parsed
          ++ PatternMatcher_go (Collaborators := demo_collaborators)
               (token_annotations 0 (tokens demo_parsed)
                ++ ErrorFinder_go (Collaborators := demo_collaborators)
                     (token_annotations 0 (tokens demo_parsed)) demo_parsed)
               demo_parsed)
    /\ length out = 2%nat.
Proof.
  destruct (annotate_output_sorted (C := demo_collaborators)
              demo_parsed eq_refl)
    as (p & out & Htraced & Hout & Hsorted & _ & _ & _ & Hsuccess & _).
  assert (Hp : p = Success_path)
    by (vm_compute in Htraced; now inversion Htraced).
  destruct (Hsuccess Hp) as [Hperm Hlen].
  exists out. split; [exact Hout|]. split; [exact Hsorted|].
  split; [exact Hperm | exact Hlen].
Defined.

Example demo_parsed_output :
  annotate (C := demo_collaborators) demo_parsed
  = Ok [token_annotation 0 {| error_code := "C002"; error_span := 1;
                              error_description := "Stafsetning" |};
        token_annotation 1 {| error_code := "P_WRONG"; error_span := 2;
                              error_description := "Orðasamband" |}].
Proof. vm_compute. reflexivity. Qed.

(** Equal starts: the wider span comes first, whatever the input order. *)
Example wider_span_first :
  sort_annotations
    [ {| start := 1; end_ := 1; code := "A"; text := ""; detail := None |};
      {| start := 0; end_ := 0; code := "B"; text := ""; detail := None |};
      {| start := 1; end_ := 3; code := "C"; text := ""; detail := None |};
      {| start := 0; end_ := 4; code := "D"; text := ""; detail := None |} ]
  = [ {| start := 0; end_ := 4; code := "D"; text := ""; detail := None |};
      {| start := 0; end_ := 0; code := "B"; text := ""; detail := None |};
      {| start := 1; end_ := 3; code := "C"; text := ""; detail := None |};
      {| start := 1; end_ := 1; code := "A"; text := ""; detail := None |} ].
Proof. vm_compute. reflexivity. Qed.

(** *** The contract of the token scan *)

(** C9.  A token that exposes error attributes without being a
    [CorrectToken] makes [annotate] raise [AssertionError].  For a
    [CorrectToken] with a non-empty error code the loop body appends exactly
    one annotation, from the token's index [ix] to [ix + error_span - 1],
    with the token's code and description; and when all tokens honour the
    contract the scan ends with exactly that one annotation starting at the
    token's position. *)
Theorem token_scan_contract `{C : Collaborators} (sent : Sentence) :
  ((exists t : Tok,
       In t (tokens sent) /\ error_attrs t <> None
       /\ is_CorrectToken t = false) ->
   annotate sent = Raise AssertionError)
  /\ (forall (ix : Z) (t : Tok) (e : ErrorInfo) (st : ScanState),
        is_CorrectToken t = true -> error_attrs t = Some e ->
        PyStr.truthy (error_code e) = true ->
        exists st' : ScanState,
          scan_token ix t st = Ok st'
          /\ ann st'
             = ann st ++ [ {| start := ix;
                              end_ := ix + error_span e - 1;
                              code := error_code e;
                              text := error_description e;
                              detail := None |} ])
  /\ (well_formed sent ->
      forall (i : nat) (t : Tok) (e : ErrorInfo),
        nth_error (tokens sent) i = Some t ->
        is_CorrectToken t = true -> error_attrs t = Some e ->
        PyStr.truthy (error_code e) = true ->
        exists st : ScanState,
          scan_tokens 0 (tokens sent) scan_start = Ok st
          /\ List.filter (fun a => start a =? Z.of_nat i) (ann st)
             = [ {| start := Z.of_nat i;
                    end_ := Z.of_nat i + error_span e - 1;
                    code := error_code e;
                    text := error_description e;
                    detail := None |} ]).
Proof.
  split; [|split].
  - intros (t & Hin & Hattr & Hct).
    assert (Hbad : forallb honours_contract (tokens sent) = false).
    { apply not_true_is_false. intros Hall.
      rewrite forallb_forall in Hall. specialize (Hall t Hin).
      unfold honours_contract in Hall.
      destruct (error_attrs t); congruence. }
    unfold annotate, annotate_traced.
    now rewrite (scan_tokens_raises _ _ _ Hbad).
  - intros ix t e st Hct Hattr Hcode. eexists. split.
    + apply scan_token_ok. unfold honours_contract. now rewrite Hattr.
    + simpl. unfold emitted. now rewrite Hattr, Hcode.
  - intros Hwf i t e Hi Hct Hattr Hcode.
    exists (scanned (tokens sent)). split; [now apply scan_well_formed|].
    pose proof (token_annotations_at (tokens sent) 0 i) as Hat.
    change (0 + Z.of_nat i) with (Z.of_nat i) in Hat.
    simpl ann. rewrite Hat, Hi. unfold emitted.
    now rewrite Hattr, Hcode.
Qed.

Lemma token_scan_contract_witness :
  annotate (C := demo_collaborators) demo_broken = Raise AssertionError.
Proof.
  apply (token_scan_contract (C := demo_collaborators) demo_broken).
  eexists. split; [right; left; reflexivity|]. split; [discriminate|reflexivity].
Defined.

Example demo_unparsed_scan :
  scan_tokens 0 (tokens demo_unparsed) scan_start
  = Ok {| ann := [ {| start := 0; end_ := 0; code := "S004";
                      text := "Orðið 'Eg' var leiðrétt í 'Ég'";
                      detail := None |} ];
          words_in_bin := 4;
          words_not_in_bin := 0 |}.
Proof. vm_compute. reflexivity. Qed.

(** *** An absent error index *)

Lemma annotate_err_index `{C : Collaborators} (sent : Sentence) (e : option nat) :
  deep_tree sent = None ->
  failure_index (with_err_index sent e) = failure_index sent ->
  annotate (with_err_index sent e) = annotate sent.
Proof.
  intros Hdt He. unfold annotate, annotate_traced. simpl tokens.
  destruct (scan_tokens 0 (tokens sent) scan_start) as [st|x]; [|reflexivity].
  simpl. unfold sentence_path. simpl deep_tree. rewrite Hdt.
  destruct (foreign_guard st); [reflexivity|].
  simpl. unfold E001_annotation, failure_toktext, failure_start, failure_end,
    token_count. rewrite He. reflexivity.
Qed.

(** C10.  For a sentence without a deep tree whose error index is [None] or
    [0], [annotate] returns what it returns when the index is set to [0] (or
    cleared): the index used is 0, the quoted window is
    [0, min n 2), that is the first two tokens, and the E001 detail names
    token number 1. *)
Theorem absent_error_index_reads_as_zero
  `{C : Collaborators} (sent : Sentence) :
  deep_tree sent = None ->
  err_index sent = None \/ err_index sent = Some 0%nat ->
  annotate sent = annotate (with_err_index sent (Some 0%nat))
  /\ annotate sent = annotate (with_err_index sent None)
  /\ failure_index sent = 0
  /\ failure_start sent = 0
  /\ failure_end sent = Z.min (Z.of_nat (length (tokens sent))) 2
  /\ PyList.slice (tokens sent) (failure_start sent) (failure_end sent)
     = firstn 2 (tokens sent)
  /\ detail (E001_annotation sent)
     = Some ("Þáttun brást í kring um 1. tóka ('"
             +:+ correct_spaces
                   (PyStr.join " "
                      (map txt
                         (List.filter (fun t => PyStr.truthy (txt t))
                            (firstn 2 (tokens sent)))))
             +:+ "')")
  /\ (well_formed sent -> ~ looks_foreign (tokens sent) ->
      exists out : list Annotation,
        annotate sent = Ok out /\ In (E001_annotation sent) out).
Proof.
  intros Hdt Herr.
  assert (H0 : failure_index sent = 0)
    by (unfold failure_index; destruct Herr as [->| ->]; reflexivity).
  assert (Hs : failure_start sent = 0) by (unfold failure_start; rewrite H0; lia).
  assert (He : failure_end sent = Z.min (Z.of_nat (length (tokens sent))) 2)
    by (unfold failure_end, token_count; now rewrite H0).
  assert (Hw : PyList.slice (tokens sent) (failure_start sent) (failure_end sent)
               = firstn 2 (tokens sent)).
  { rewrite failure_slice_window. rewrite H0.
    rewrite PyList.window_from by lia. unfold token_count.
    destruct (tokens sent) as [|t0 [|t1 ts]]; try reflexivity.
    replace (Z.to_nat _) with 2%nat; [reflexivity|].
    rewrite Z.min_r; simpl length; lia. }
  repeat split; auto.
  - symmetry. apply annotate_err_index; [exact Hdt|]. now rewrite H0.
  - symmetry. apply annotate_err_index; [exact Hdt|]. now rewrite H0.
  - unfold E001_annotation, failure_toktext. simpl. now rewrite Hw, H0.
  - intros Hwf Hnf.
    pose proof (annotate_traced_well_formed sent Hwf) as Ht.
    pose proof (sentence_path_cases sent) as (_ & H1 & _).
    assert (Hp : sentence_path sent (scanned (tokens sent)) = E001_path)
      by (apply H1; now split).
    rewrite Hp in Ht. eexists. split; [exact (annotate_of_traced _ _ _ Ht)|].
    apply (Permutation_in _ (symmetry (sort_annotations_perm _))).
    simpl. apply in_app_iff. right. now left.
Qed.

Lemma absent_error_index_reads_as_zero_witness :
  annotate (C := demo_collaborators) demo_two_words
  = annotate (C := demo_collaborators)
      (with_err_index demo_two_words (Some 0%nat)).
Proof.
  exact (proj1 (absent_error_index_reads_as_zero (C := demo_collaborators)
                  demo_two_words eq_refl (or_introl eq_refl))).
Defined.

End Annotator.

(** ** ParserLifecycle: the [GreynirCorrect.parser] property

    The property body runs under [with self._lock].  Threads are modelled by
    their program points and interleave one step at a time; the class
    attributes [_parser], [_reducer] and [_lock] are the shared state. *)

Module ParserLifecycle.

(** An [ErrorDetectingParser] instance, named by its construction number. *)
Definition instance : Type := nat.

(** The class attributes of [GreynirCorrect].  [_lock] records the thread
    that holds the lock, [_reducer] the parser whose grammar the reducer was
    built from, and [constructed] counts the [ErrorDetectingParser()] calls
    made so far. *)
Record Shared : Type := {
  _lock : option nat;
  _parser : option instance;
  _reducer : option instance;
  constructed : nat
}.

(** Program points of one call of the property. *)
Inductive pc : Type :=
| Calling                          (* before [with self._lock] *)
| Holding                          (* lock taken, about to test *)
| Constructing                     (* inside [ErrorDetectingParser()] *)
| Binding (edp : instance)         (* [_parser] assigned, [Reducer(edp.grammar)] next *)
| AfterIf                          (* about to read the return value *)
| Leaving (ret : option instance)  (* return value read, lock still held *)
| Returned (ret : option instance).

Record World : Type := {
  shared : Shared;
  threads : list pc
}.

Definition in_critical (p : pc) : bool :=
  match p with
  | Holding | Constructing | Binding _ | AfterIf | Leaving _ => true
  | Calling | Returned _ => false
  end.

(** A construction is in flight from the moment the constructor is entered
    until the reducer has been bound. *)
Definition in_flight (p : pc) : bool :=
  match p with
  | Constructing | Binding _ => true
  | _ => false
  end.

Definition has_returned (p : pc) : bool :=
  match p with
  | Returned _ => true
  | _ => false
  end.

(** [n] threads about to make the first call: no instance yet. *)
Definition first_calls (n : nat) : World :=
  {| shared := {| _lock := None; _parser := None; _reducer := None;
                  constructed := 0 |};
     threads := replicate n Calling |}.

(** The six steps of one call, thread after thread. *)
Definition one_after_another (n : nat) : list nat :=
  flat_map (fun t => replicate 6 t) (seq 0 n).

Definition all_returned (w : World) : bool :=
  forallb has_returned (threads w).

Section Lifecycle.

(** [p.is_grammar_modified()[0]] for the instance [p]. *)
Variable is_grammar_modified : instance -> bool.

(** [_parser is None or _parser.is_grammar_modified()[0]]. *)
Definition needs_rebuild (sh : Shared) : bool :=
  match _parser sh with
  | None => true
  | Some p => is_grammar_modified p
  end.

Definition at_pc (t : nat) (p : pc) (sh : Shared) (w : World) : World :=
  {| shared := sh; threads := <[t := p]> (threads w) |}.

(** The move of thread [t] from program point [p] over the shared state
    [sh]: the next program point and the shared state it leaves, or [None]
    when the thread cannot move (it waits for the lock, or has returned). *)
Definition step_pc (t : nat) (sh : Shared) (p : pc) : option (pc * Shared) :=
  match p with
  | Calling =>
      match _lock sh with
      | Some _ => None
      | None =>
          Some (Holding,
                {| _lock := Some t; _parser := _parser sh;
                   _reducer := _reducer sh; constructed := constructed sh |})
      end
  | Holding =>
      if needs_rebuild sh then Some (Constructing, sh) else Some (AfterIf, sh)
  | Constructing =>
      let edp := constructed sh in
      Some (Binding edp,
            {| _lock := _lock sh; _parser := Some edp;
               _reducer := _reducer sh; constructed := S edp |})
  | Binding edp =>
      Some (AfterIf,
            {| _lock := _lock sh; _parser := _parser sh;
               _reducer := Some edp; constructed := constructed sh |})
  | AfterIf => Some (Leaving (_parser sh), sh)
  | Leaving ret =>
      Some (Returned ret,
            {| _lock := None; _parser := _parser sh;
               _reducer := _reducer sh; constructed := constructed sh |})
  | Returned _ => None
  end.

(** One step of thread [t] in the world [w]. *)
Definition step_thread (t : nat) (w : World) : option World :=
  match threads w !! t with
  | None => None
  | Some p =>
      match step_pc t (shared w) p with
      | None => None
      | Some (p', sh') => Some (at_pc t p' sh' w)
      end
  end.

(** The scheduler picks a thread; a thread that cannot move leaves the world
    as it is. *)
Definition schedule_one (w : World) (t : nat) : World :=
  default w (step_thread t w).

Definition run (sched : list nat) (w : World) : World :=
  foldl schedule_one w sched.

(** The property body as one uninterrupted call. *)
Definition parser_call (sh : Shared) : Shared * option instance :=
  let sh' :=
    if needs_rebuild sh
    then {| _lock := _lock sh; _parser := Some (constructed sh);
            _reducer := Some (constructed sh);
            constructed := S (constructed sh) |}
    else sh in
  (sh', _parser sh').

(** [n] steps of thread [t] with no other thread moving. *)
Fixpoint steps_alone (n : nat) (t : nat) (p : pc) (sh : Shared)
  : pc * Shared :=
  match n with
  | O => (p, sh)
  | S n' =>
      match step_pc t sh p with
      | Some (p', sh') => steps_alone n' t p' sh'
      | None => (p, sh)
      end
  end.

(** What holds of a thread at each program point. *)
Definition thread_ok (sh : Shared) (t : nat) (p : pc) : Prop :=
  (in_critical p = true -> _lock sh = Some t)
  /\ match p with
     | Constructing => needs_rebuild sh = true
     | Binding edp => _parser sh = Some edp /\ constructed sh = S edp
     | AfterIf => _parser sh <> None
     | Leaving ret => ret = _parser sh /\ ret <> None
     | Returned ret => exists i : instance, ret = Some i /\ (i < constructed sh)%nat
     | Calling | Holding => True
     end.

(** The invariant of the interleaved system. *)
Record Inv (w : World) : Prop := {
  inv_threads :
    forall (t : nat) (p : pc),
      threads w !! t = Some p -> thread_ok (shared w) t p;
  inv_holder :
    forall t : nat,
      _lock (shared w) = Some t ->
      exists p : pc, threads w !! t = Some p /\ in_critical p = true;
  inv_latest :
    _parser (shared w)
    = match constructed (shared w) with
      | O => None
      | S k => Some k
      end
}.

(** Steps still ahead of a thread, at most. *)
Definition steps_left (p : pc) : nat :=
  match p with
  | Calling => 6
  | Holding => 5
  | Constructing => 4
  | Binding _ => 3
  | AfterIf => 2
  | Leaving _ => 1
  | Returned _ => 0
  end.

Definition work_left (w : World) : nat :=
  list_sum (map steps_left (threads w)).

Lemma needs_rebuild_iff (sh : Shared) :
  needs_rebuild sh = true
  <-> _parser sh = None
      \/ exists p : instance, _parser sh = Some p /\ is_grammar_modified p = true.
Proof.
  unfold needs_rebuild. destruct (_parser sh) as [p|].
  - split; [intros H; right; now exists p|].
    intros [H|(q & Hq & Hm)]; [discriminate|]. now inversion Hq; subst.
  - split; [now left | reflexivity].
Qed.

(** A thread that does not hold the lock is not disturbed by a step that
    only lets [constructed] grow. *)
Lemma thread_ok_frame (sh sh' : Shared) (t : nat) (p : pc) :
  thread_ok sh t p ->
  _lock sh <> Some t ->
  (constructed sh <= constructed sh')%nat ->
  thread_ok sh' t p.
Proof.
  intros [Hlock Hp] Hno Hle. destruct p; simpl in *;
    try (exfalso; apply Hno; now apply Hlock).
  - split; [discriminate | exact I].
  - split; [discriminate|]. destruct Hp as (i & -> & Hi).
    exists i. split; [reflexivity | lia].
Qed.

Lemma first_calls_inv (n : nat) : Inv (first_calls n).
Proof.
  split; simpl.
  - intros t p Ht. apply lookup_replicate in Ht as [-> _].
    split; [discriminate | exact I].
  - discriminate.
  - reflexivity.
Qed.

Lemma at_pc_same (t : nat) (p : pc) (sh : Shared) (w : World) :
  (t < length (threads w))%nat -> threads (at_pc t p sh w) !! t = Some p.
Proof. intros Ht. simpl. now apply list_lookup_insert_eq. Qed.

Lemma at_pc_other (t t' : nat) (p : pc) (sh : Shared) (w : World) :
  t <> t' -> threads (at_pc t p sh w) !! t' = threads w !! t'.
Proof. intros Ht. simpl. now apply list_lookup_insert_ne. Qed.

(** Moving one thread keeps the invariant when no other thread holds the
    lock, the new shared state suits the thread's new program point, and only
    that thread can be the new holder. *)
Lemma at_pc_inv (w : World) (t : nat) (p p' : pc) (sh' : Shared) :
  Inv w ->
  threads w !! t = Some p ->
  _lock (shared w) = Some t \/ _lock (shared w) = None ->
  (constructed (shared w) <= constructed sh')%nat ->
  thread_ok sh' t p' ->
  (forall t' : nat, _lock sh' = Some t' -> t' = t /\ in_critical p' = true) ->
  _parser sh' = match constructed sh' with O => None | S k => Some k end ->
  Inv (at_pc t p' sh' w).
Proof.
  intros HI Ht Hlock Hle Hok Hholder Hlatest.
  assert (Hlen : (t < length (threads w))%nat) by (eapply lookup_lt_Some; eauto).
  split.
  - intros t2 p2 H2. destruct (decide (t = t2)) as [<-|Hne].
    + rewrite at_pc_same in H2 by exact Hlen. now inversion H2; subst.
    + rewrite at_pc_other in H2 by exact Hne.
      apply (thread_ok_frame (shared w)); [now apply (inv_threads _ HI)| |exact Hle].
      destruct Hlock as [Hl|Hl]; rewrite Hl; congruence.
  - intros t' Hl. destruct (Hholder t' Hl) as [-> Hc].
    exists p'. split; [now apply at_pc_same | exact Hc].
  - exact Hlatest.
Qed.

Lemma step_thread_inv (w w' : World) (t : nat) :
  Inv w -> step_thread t w = Some w' -> Inv w'.
Proof.
  intros HI. unfold step_thread.
  destruct (threads w !! t) as [p|] eqn:Ht; [|discriminate].
  pose proof (inv_threads _ HI t p Ht) as [Hcrit Hp].
  pose proof (inv_latest _ HI) as Hlatest.
  destruct p; simpl in Hcrit, Hp; simpl step_pc.
  - destruct (_lock (shared w)) eqn:Hl; [discriminate|].
    intros [= <-]. eapply at_pc_inv; eauto; simpl; try lia.
    + split; [reflexivity | exact I].
    + intros t' [= <-]. now split.
  - specialize (Hcrit eq_refl).
    destruct (needs_rebuild (shared w)) eqn:Hn; intros [= <-];
      (eapply at_pc_inv; eauto; simpl; try lia).
    + now split.
    + intros t' Ht'. rewrite Hcrit in Ht'. inversion Ht'. now split.
    + split; [auto|]. unfold needs_rebuild in Hn.
      destruct (_parser (shared w)); [discriminate | discriminate].
    + intros t' Ht'. rewrite Hcrit in Ht'. inversion Ht'. now split.
  - specialize (Hcrit eq_refl). intros [= <-].
    eapply at_pc_inv; eauto; simpl; try lia.
    + now split.
    + intros t' Ht'. rewrite Hcrit in Ht'. inversion Ht'. now split.
  - specialize (Hcrit eq_refl). destruct Hp as [Hpar Hc]. intros [= <-].
    eapply at_pc_inv; eauto; simpl; try lia.
    + split; [auto|]. rewrite Hpar. discriminate.
    + intros t' Ht'. rewrite Hcrit in Ht'. inversion Ht'. now split.
  - specialize (Hcrit eq_refl). intros [= <-].
    eapply at_pc_inv; eauto; simpl; try lia.
    + now split.
    + intros t' Ht'. rewrite Hcrit in Ht'. inversion Ht'. now split.
  - specialize (Hcrit eq_refl). destruct Hp as [Hret Hsome]. intros [= <-].
    eapply at_pc_inv; eauto; simpl; try lia.
    + split; [discriminate|]. rewrite Hlatest in Hret.
      destruct (constructed (shared w)) as [|k]; [congruence|].
      exists k. split; [exact Hret | simpl; lia].
    + discriminate.
  - discriminate.
Qed.

Lemma run_inv (sched : list nat) (w : World) : Inv w -> Inv (run sched w).
Proof.
  revert w. induction sched as [|t sched IH]; intros w HI; [exact HI|].
  simpl. apply IH. unfold schedule_one.
  destruct (step_thread t w) as [w'|] eqn:Hs; simpl; [|exact HI].
  now apply (step_thread_inv w w' t).
Qed.

(** *** One construction while the grammar stays as it is *)

Lemma step_thread_constructed (w w' : World) (t : nat) :
  (forall i : instance, is_grammar_modified i = false) ->
  Inv w -> (constructed (shared w) <= 1)%nat ->
  step_thread t w = Some w' -> (constructed (shared w') <= 1)%nat.
Proof.
  intros Hstable HI Hle. unfold step_thread.
  destruct (threads w !! t) as [p|] eqn:Ht; [|discriminate].
  pose proof (inv_threads _ HI t p Ht) as [_ Hp].
  destruct p; simpl in Hp; simpl step_pc.
  - destruct (_lock (shared w)); [discriminate|]. now intros [= <-].
  - destruct (needs_rebuild (shared w)); now intros [= <-].
  - intros [= <-]. simpl.
    apply needs_rebuild_iff in Hp as [Hnone|(i & _ & Hi)].
    + pose proof (inv_latest _ HI) as Hlatest. rewrite Hnone in Hlatest.
      destruct (constructed (shared w)); [lia | discriminate].
    + rewrite Hstable in Hi. discriminate.
  - now intros [= <-].
  - now intros [= <-].
  - now intros [= <-].
  - discriminate.
Qed.

Lemma run_constructed (sched : list nat) (w : World) :
  (forall i : instance, is_grammar_modified i = false) ->
  Inv w -> (constructed (shared w) <= 1)%nat ->
  (constructed (shared (run sched w)) <= 1)%nat.
Proof.
  intros Hstable. revert w.
  induction sched as [|t sched IH]; intros w HI Hle; [exact Hle|].
  simpl. unfold schedule_one.
  destruct (step_thread t w) as [w'|] eqn:Hs; simpl; [|now apply IH].
  apply IH.
  - now apply (step_thread_inv w w' t).
  - now apply (step_thread_constructed w w' t).
Qed.

(** *** No deadlock, and every step is progress *)

Lemma some_not_returned (l : list pc) :
  forallb has_returned l = false ->
  exists (t : nat) (p : pc), l !! t = Some p /\ has_returned p = false.
Proof.
  induction l as [|p l IH]; [discriminate|]. simpl.
  destruct (has_returned p) eqn:Hp; simpl.
  - intros H. destruct (IH H) as (t & q & Ht & Hq). now exists (S t), q.
  - intros _. now exists 0%nat, p.
Qed.

Lemma can_step (w : World) :
  Inv w -> all_returned w = false ->
  exists (t : nat) (w' : World), step_thread t w = Some w'.
Proof.
  intros HI Hall. destruct (_lock (shared w)) as [t|] eqn:Hl.
  - destruct (inv_holder _ HI t Hl) as (p & Ht & Hc).
    exists t. unfold step_thread. rewrite Ht.
    destruct p; try discriminate; simpl; eauto.
    destruct (needs_rebuild (shared w)); eauto.
  - destruct (some_not_returned _ Hall) as (t & p & Ht & Hp).
    pose proof (inv_threads _ HI t p Ht) as [Hcrit _].
    exists t. unfold step_thread. rewrite Ht.
    destruct p; try discriminate;
      try (specialize (Hcrit eq_refl); congruence).
    simpl. rewrite Hl. eauto.
Qed.

Lemma list_sum_insert (l : list pc) (t : nat) (p p' : pc) :
  l !! t = Some p ->
  (list_sum (map steps_left (<[t := p']> l)) + steps_left p
   = list_sum (map steps_left l) + steps_left p')%nat.
Proof.
  revert t. induction l as [|q l IH]; intros t Ht; [discriminate|].
  destruct t as [|t]; simpl in *.
  - inversion Ht; subst. lia.
  - specialize (IH t Ht). lia.
Qed.

Lemma step_pc_progress (t : nat) (sh sh' : Shared) (p p' : pc) :
  step_pc t sh p = Some (p', sh') -> (steps_left p' < steps_left p)%nat.
Proof.
  destruct p; simpl.
  - destruct (_lock sh); [discriminate|]. intros [= <- _]. simpl. lia.
  - destruct (needs_rebuild sh); intros [= <- _]; simpl; lia.
  - intros [= <- _]. simpl. lia.
  - intros [= <- _]. simpl. lia.
  - intros [= <- _]. simpl. lia.
  - intros [= <- _]. simpl. lia.
  - discriminate.
Qed.

Lemma step_thread_progress (w w' : World) (t : nat) :
  step_thread t w = Some w' -> (work_left w' < work_left w)%nat.
Proof.
  unfold step_thread, work_left.
  destruct (threads w !! t) as [p|] eqn:Ht; [|discriminate].
  destruct (step_pc t (shared w) p) as [[p' sh']|] eqn:Hs; [|discriminate].
  intros [= <-]. simpl.
  pose proof (list_sum_insert (threads w) t p p' Ht).
  pose proof (step_pc_progress _ _ _ _ _ Hs). lia.
Qed.

(** From any state of the invariant the calls can all be brought to their
    end. *)
Lemma can_finish (m : nat) (w : World) :
  Inv w -> (work_left w <= m)%nat ->
  exists sched : list nat, all_returned (run sched w) = true.
Proof.
  revert w. induction m as [|m IH]; intros w HI Hm;
    destruct (all_returned w) eqn:Hall;
    try (now exists []);
    destruct (can_step w HI Hall) as (t & w' & Hs);
    pose proof (step_thread_progress _ _ _ Hs) as Hlt; [lia|].
  destruct (IH w') as [sched Hsched];
    [now apply (step_thread_inv w w' t) | lia |].
  exists (t :: sched). simpl. unfold schedule_one. now rewrite Hs.
Qed.

(** *** A call that runs alone is the property body *)

Lemma schedule_one_at (w : World) (t : nat) (p : pc) (sh : Shared) :
  (t < length (threads w))%nat ->
  schedule_one (at_pc t p sh w) t
  = match step_pc t sh p with
    | Some (p', sh') => at_pc t p' sh' w
    | None => at_pc t p sh w
    end.
Proof.
  intros Ht. unfold schedule_one, step_thread.
  rewrite at_pc_same by exact Ht. simpl shared.
  destruct (step_pc t sh p) as [[p' sh']|]; simpl; [|reflexivity].
  unfold at_pc; simpl. now rewrite list_insert_insert_eq.
Qed.

Lemma run_blocked (n : nat) (w : World) (t : nat) (p : pc) (sh : Shared) :
  (t < length (threads w))%nat ->
  step_pc t sh p = None ->
  run (replicate n t) (at_pc t p sh w) = at_pc t p sh w.
Proof.
  intros Ht Hs. induction n as [|n IH]; [reflexivity|].
  simpl. rewrite schedule_one_at by exact Ht. rewrite Hs. exact IH.
Qed.

Lemma run_alone (n : nat) (w : World) (t : nat) (p : pc) (sh : Shared) :
  (t < length (threads w))%nat ->
  run (replicate n t) (at_pc t p sh w)
  = at_pc t (fst (steps_alone n t p sh)) (snd (steps_alone n t p sh)) w.
Proof.
  intros Ht. revert p sh. induction n as [|n IH]; intros p sh; [reflexivity|].
  simpl replicate. simpl steps_alone.
  destruct (step_pc t sh p) as [[p' sh']|] eqn:Hs.
  - simpl run. rewrite schedule_one_at by exact Ht. rewrite Hs. apply IH.
  - now apply (run_blocked (S n)).
Qed.

Lemma lone_call (w : World) (t : nat) :
  threads w !! t = Some Calling -> _lock (shared w) = None ->
  run (replicate 6 t) w
  = {| shared := fst (parser_call (shared w));
       threads := <[t := Returned (snd (parser_call (shared w)))]> (threads w) |}.
Proof.
  intros Ht Hl.
  assert (Hlen : (t < length (threads w))%nat) by (eapply lookup_lt_Some; eauto).
  assert (Hw : w = at_pc t Calling (shared w) w).
  { destruct w as [sh l]. unfold at_pc. simpl in *. now rewrite list_insert_id. }
  rewrite Hw at 1. rewrite run_alone by exact Hlen.
  destruct w as [[lk par red c] l]. simpl in Hl. subst lk.
  unfold parser_call, at_pc. simpl.
  unfold needs_rebuild. simpl.
  destruct par as [i|]; [destruct (is_grammar_modified i)|]; reflexivity.
Qed.

Lemma parser_call_rebuilds (sh : Shared) :
  (constructed (fst (parser_call sh)) = S (constructed sh)
   <-> needs_rebuild sh = true)
  /\ (needs_rebuild sh = true ->
      _parser (fst (parser_call sh)) = Some (constructed sh)
      /\ _reducer (fst (parser_call sh)) = Some (constructed sh)
      /\ snd (parser_call sh) = Some (constructed sh))
  /\ (needs_rebuild sh = false ->
      fst (parser_call sh) = sh /\ snd (parser_call sh) = _parser sh).
Proof.
  unfold parser_call. destruct (needs_rebuild sh); simpl.
  - repeat split; auto; discriminate.
  - repeat split; auto; try discriminate. lia.
Qed.

(** *** The singleton *)

Lemma critical_is_holder (w : World) (t1 t2 : nat) (p1 p2 : pc) :
  Inv w ->
  threads w !! t1 = Some p1 -> threads w !! t2 = Some p2 ->
  in_critical p1 = true -> in_critical p2 = true -> t1 = t2.
Proof.
  intros HI H1 H2 Hc1 Hc2.
  destruct (inv_threads _ HI t1 p1 H1) as [Hl1 _].
  destruct (inv_threads _ HI t2 p2 H2) as [Hl2 _].
  specialize (Hl1 Hc1). specialize (Hl2 Hc2). congruence.
Qed.

Lemma in_flight_critical (p : pc) : in_flight p = true -> in_critical p = true.
Proof. now destruct p. Qed.

Lemma run_length (sched : list nat) (w : World) :
  length (threads (run sched w)) = length (threads w).
Proof.
  revert w. induction sched as [|t sched IH]; intros w; [reflexivity|].
  simpl. rewrite IH. unfold schedule_one, step_thread.
  destruct (threads w !! t) as [p|]; [|reflexivity].
  destruct (step_pc t (shared w) p) as [[p' sh']|]; [|reflexivity].
  simpl. apply length_insert.
Qed.

Lemma all_returned_lookup (w : World) (t : nat) :
  all_returned w = true -> (t < length (threads w))%nat ->
  exists ret : option instance, threads w !! t = Some (Returned ret).
Proof.
  unfold all_returned. intros Hall Ht.
  destruct (lookup_lt_is_Some_2 _ _ Ht) as [p Hp].
  rewrite forallb_forall in Hall.
  assert (Hr : has_returned p = true).
  { apply Hall. apply list_elem_of_In. eapply list_elem_of_lookup_2; eauto. }
  destruct p; try discriminate. now exists ret.
Qed.

End Lifecycle.

(** C8, as stated, fails when an instance reports its grammar as modified
    while the first calls are under way.  Here instance 0 does; thread 1
    waits for the lock while thread 0 builds instance 0, then finds it
    modified and builds instance 1: two constructions, and the two callers
    get different instances. *)
Lemma modified_grammar_rebuilds :
  run (fun i => Nat.eqb i 0)
    [0; 1; 0; 0; 1; 0; 0; 0; 1; 1; 1; 1; 1; 1]%nat (first_calls 2)
  = {| shared := {| _lock := None; _parser := Some 1%nat;
                    _reducer := Some 1%nat; constructed := 2 |};
       threads := [Returned (Some 0%nat); Returned (Some 1%nat)] |}.
Proof. vm_compute. reflexivity. Qed.

(** C8, amended.  Take [n] threads that call the accessor when no instance
    exists yet, interleaved in any order [sched].  In the state reached:
    - at most one thread is inside the locked region, so at most one
      construction is in flight;
    - provided no instance reports its grammar as modified, at most one
      construction has been made, every caller that has returned got
      instance 0, which is the singleton, and once all have returned (which
      can always be brought about) exactly one construction has been made;
    - a call that runs alone is [parser_call], and it constructs a new pair
      if and only if there is no instance or the instance reports its
      grammar as modified; otherwise it leaves the shared state as it was
      and returns the existing instance. *)
Theorem parser_singleton
  (is_grammar_modified : instance -> bool) (n : nat) (sched : list nat) :
  let w := run is_grammar_modified sched (first_calls n) in
  (forall (t1 t2 : nat) (p1 p2 : pc),
      threads w !! t1 = Some p1 -> threads w !! t2 = Some p2 ->
      in_critical p1 = true -> in_critical p2 = true -> t1 = t2)
  /\ (forall (t1 t2 : nat) (p1 p2 : pc),
        threads w !! t1 = Some p1 -> threads w !! t2 = Some p2 ->
        in_flight p1 = true -> in_flight p2 = true -> t1 = t2)
  /\ ((forall i : instance, is_grammar_modified i = false) ->
      (constructed (shared w) <= 1)%nat
      /\ (forall (t : nat) (ret : option instance),
            threads w !! t = Some (Returned ret) ->
            ret = Some 0%nat /\ _parser (shared w) = Some 0%nat
            /\ constructed (shared w) = 1%nat)
      /\ (all_returned w = true -> (0 < n)%nat ->
          constructed (shared w) = 1%nat)
      /\ exists more : list nat,
          all_returned (run is_grammar_modified more w) = true)
  /\ (forall sh : Shared,
        (constructed (fst (parser_call is_grammar_modified sh))
         = S (constructed sh)
         <-> _parser sh = None
             \/ exists p : instance,
                  _parser sh = Some p /\ is_grammar_modified p = true)
        /\ (needs_rebuild is_grammar_modified sh = false ->
            fst (parser_call is_grammar_modified sh) = sh
            /\ snd (parser_call is_grammar_modified sh) = _parser sh))
  /\ (forall (w0 : World) (t : nat),
        threads w0 !! t = Some Calling -> _lock (shared w0) = None ->
        run is_grammar_modified (replicate 6 t) w0
        = {| shared := fst (parser_call is_grammar_modified (shared w0));
             threads :=
               <[t := Returned (snd (parser_call is_grammar_modified
                                       (shared w0)))]> (threads w0) |}).
Proof.
  intros w.
  assert (HI : Inv is_grammar_modified w)
    by apply run_inv, (first_calls_inv is_grammar_modified).
  split; [|split; [|split; [|split]]].
  - intros t1 t2 p1 p2. now apply (critical_is_holder is_grammar_modified).
  - intros t1 t2 p1 p2 H1 H2 Hf1 Hf2.
    apply (critical_is_holder is_grammar_modified w t1 t2 p1 p2);
      auto using in_flight_critical.
  - intros Hstable.
    assert (Hle : (constructed (shared w) <= 1)%nat).
    { apply run_constructed;
        [exact Hstable | apply first_calls_inv | simpl; lia]. }
    assert (Hret : forall (t : nat) (ret : option instance),
               threads w !! t = Some (Returned ret) ->
               ret = Some 0%nat /\ _parser (shared w) = Some 0%nat
               /\ constructed (shared w) = 1%nat).
    { intros t ret Ht.
      destruct (inv_threads _ _ HI t _ Ht) as [_ (i & -> & Hi)].
      assert (Hc : constructed (shared w) = 1%nat) by lia.
      assert (i = 0%nat) as -> by lia.
      pose proof (inv_latest _ _ HI) as Hlatest. rewrite Hc in Hlatest.
      auto. }
    split; [exact Hle|]. split; [exact Hret|]. split.
    + intros Hall Hn.
      destruct (all_returned_lookup w 0%nat Hall) as [ret Hr].
      * unfold w. rewrite run_length. simpl. now rewrite length_replicate.
      * now destruct (Hret _ _ Hr) as (_ & _ & Hc).
    + now apply (can_finish is_grammar_modified (work_left w) w).
  - intros sh.
    destruct (parser_call_rebuilds is_grammar_modified sh) as (Hiff & _ & Hkeep).
    split; [|exact Hkeep]. rewrite Hiff. apply needs_rebuild_iff.
  - intros w0 t. apply lone_call.
Qed.

Lemma parser_singleton_witness :
  constructed
    (shared (run (fun _ => false)
               [0; 1; 2; 0; 1; 0; 0; 2; 0; 0; 1; 1; 2; 1; 1; 2; 2; 2; 2]%nat
               (first_calls 3)))
  = 1%nat.
Proof.
  pose proof (parser_singleton (fun _ => false) 3
                [0; 1; 2; 0; 1; 0; 0; 2; 0; 0; 1; 1; 2; 1; 1; 2; 2; 2; 2]%nat)
    as (_ & _ & Hstable & _).
  destruct (Hstable (fun _ => eq_refl)) as (_ & _ & Hone & _).
  apply Hone; [vm_compute; reflexivity | lia].
Defined.

Example three_first_calls :
  run (fun _ => false) [0; 1; 2; 0; 1; 0; 0; 2; 0; 0; 1; 1; 2; 1; 1; 2; 2; 2; 2]%nat
    (first_calls 3)
  = {| shared := {| _lock := None; _parser := Some 0%nat;
                    _reducer := Some 0%nat; constructed := 1 |};
       threads := [Returned (Some 0%nat); Returned (Some 0%nat);
                   Returned (Some 0%nat)] |}.
Proof. vm_compute. reflexivity. Qed.

(** With a grammar that always reports itself modified every call rebuilds. *)
Example always_modified_rebuilds :
  constructed (shared (run (fun _ => true) (one_after_another 3) (first_calls 3)))
  = 3%nat.
Proof. vm_compute. reflexivity. Qed.

End ParserLifecycle.

(** ** More on [GreynirCorrect.annotate]: failure, precedence, bounds *)

Module AnnotatorProps.

Import Annotator.

Local Open Scope Z_scope.
Local Open Scope list_scope.

(** The collaborators of [C] replaced by [ef] and [pm]; the imported
    constants stay. *)
Definition with_collaborators (C : Collaborators) (ef pm : Collaborator)
  : Collaborators :=
  {| ICELANDIC_RATIO := @ICELANDIC_RATIO C;
     correct_spaces := @correct_spaces C;
     format_percent := @format_percent C;
     ErrorFinder_go := ef;
     PatternMatcher_go := pm |}.

(** [sent] with another parse result. *)
Definition with_parse (sent : Sentence) (tree : option SimpleTree)
  (e : option nat) : Sentence :=
  {| tokens := tokens sent; deep_tree := tree; err_index := e |}.

(** A word or a person name. *)
Definition word_like (t : Tok) : bool :=
  match kind t with
  | WORD | PERSON => true
  | _ => false
  end.

(** A token that carries a non-empty error code. *)
Definition has_error_code (t : Tok) : bool :=
  match error_attrs t with
  | Some e => PyStr.truthy (error_code e)
  | None => false
  end.

(** Collaborators that speak up: to tell their annotations from the rest. *)
Definition noisy_collaborators : Collaborators :=
  with_collaborators demo_collaborators
    (fun _ _ => [ {| start := 0; end_ := 0; code := "E002"; text := "x";
                     detail := None |} ])
    (fun _ _ => [ {| start := 1; end_ := 1; code := "P_x"; text := "y";
                     detail := None |} ]).

Definition demo_short : Sentence :=
  {| tokens := [word "hello" []; word "world" []];
     deep_tree := None;
     err_index := None |}.

Definition demo_empty : Sentence :=
  {| tokens := []; deep_tree := None; err_index := Some 4%nat |}.

(** *** When [annotate] fails *)

Lemma violation_iff (ts : list Tok) :
  forallb honours_contract ts = false
  <-> exists t : Tok,
        In t ts /\ error_attrs t <> None /\ is_CorrectToken t = false.
Proof.
  split.
  - intros H. induction ts as [|t ts IH]; [discriminate|].
    simpl in H. destruct (honours_contract t) eqn:Ht.
    + destruct (IH H) as (t' & Hin & Ht'). exists t'. split; [now right|exact Ht'].
    + exists t. split; [now left|]. unfold honours_contract in Ht.
      destruct (error_attrs t); [split; [discriminate | exact Ht] | discriminate].
  - intros (t & Hin & Hattr & Hct). apply not_true_is_false. intros Hall.
    rewrite forallb_forall in Hall. specialize (Hall t Hin).
    unfold honours_contract in Hall. destruct (error_attrs t); congruence.
Qed.

(** X1.  [annotate] raises [AssertionError] exactly when some token exposes
    error attributes without being a [CorrectToken], and returns a list
    exactly when no token does; whether the sentence was parsed, and where
    the parser gave up, plays no part in that. *)
Theorem annotate_raises_iff `{C : Collaborators} (sent : Sentence) :
  (annotate sent = Raise AssertionError
   <-> exists t : Tok,
         In t (tokens sent) /\ error_attrs t <> None
         /\ is_CorrectToken t = false)
  /\ ((exists out : list Annotation, annotate sent = Ok out)
      <-> forall t : Tok,
            In t (tokens sent) -> error_attrs t <> None ->
            is_CorrectToken t = true)
  /\ (forall (tree : option SimpleTree) (e : option nat),
        annotate (with_parse sent tree e) = Raise AssertionError
        <-> annotate sent = Raise AssertionError).
Proof.
  assert (Hraise : forall s : Sentence,
             annotate s = Raise AssertionError
             <-> forallb honours_contract (tokens s) = false).
  { intros s. unfold annotate, annotate_traced.
    destruct (forallb honours_contract (tokens s)) eqn:Hwf.
    - rewrite (scan_tokens_ok _ _ _ Hwf). simpl. split; discriminate.
    - rewrite (scan_tokens_raises _ _ _ Hwf). simpl. split; reflexivity. }
  split; [|split].
  - rewrite Hraise. apply violation_iff.
  - split.
    + intros [out Hout] t Hin Hattr.
      destruct (is_CorrectToken t) eqn:Hct; [reflexivity|].
      assert (Hbad : annotate sent = Raise AssertionError).
      { apply Hraise, violation_iff. now exists t. }
      congruence.
    + intros Hall.
      destruct (forallb honours_contract (tokens sent)) eqn:Hwf.
      * unfold annotate. rewrite (annotate_traced_well_formed sent Hwf).
        simpl. eauto.
      * apply violation_iff in Hwf as (t & Hin & Hattr & Hct).
        rewrite (Hall t Hin Hattr) in Hct. discriminate.
  - intros tree e. now rewrite !Hraise.
Qed.

(** *** Which branch wins *)

(** X2.  The foreign-language guard comes first: on a sentence that looks
    foreign the output is the E004 annotation alone, whatever the parse
    result (a deep tree or none, any error index) and whatever the two
    collaborators would have appended. *)
Theorem foreign_guard_takes_precedence
  (C : Collaborators) (sent : Sentence)
  (tree : option SimpleTree) (e : option nat) (ef pm : Collaborator) :
  well_formed sent ->
  looks_foreign (tokens sent) ->
  annotate (C := with_collaborators C ef pm) (with_parse sent tree e)
  = Ok [E004_annotation (C := C) sent (scanned (tokens sent))]
  /\ annotate (C := with_collaborators C ef pm) (with_parse sent tree e)
     = annotate (C := C) sent.
Proof.
  intros Hwf Hf.
  assert (Hwf' : well_formed (with_parse sent tree e)) by exact Hwf.
  assert (Hg : foreign_guard (C := C) (scanned (tokens sent)) = true)
    by now apply foreign_guard_scanned.
  unfold annotate.
  rewrite (annotate_traced_well_formed (C := with_collaborators C ef pm) _ Hwf').
  rewrite (annotate_traced_well_formed (C := C) _ Hwf).
  unfold sentence_path. simpl tokens.
  change (foreign_guard (C := with_collaborators C ef pm) (scanned (tokens sent)))
    with (foreign_guard (C := C) (scanned (tokens sent))).
  rewrite Hg. split; reflexivity.
Qed.

Lemma foreign_guard_takes_precedence_witness :
  annotate (C := noisy_collaborators)
    (with_parse demo_foreign (Some (Terminal "so")) None)
  = annotate (C := demo_collaborators) demo_foreign.
Proof.
  assert (Hf : looks_foreign (C := demo_collaborators) (tokens demo_foreign)).
  { split; reflexivity. }
  exact (proj2 (foreign_guard_takes_precedence demo_collaborators demo_foreign
                  (Some (Terminal "so")) None _ _ eq_refl Hf)).
Defined.

(** X3.  Without a deep tree the two collaborators are not consulted: the
    output of [annotate] on an unparsed sentence is the same whatever they
    would append. *)
Theorem unparsed_sentence_skips_collaborators
  (C : Collaborators) (sent : Sentence) (ef pm : Collaborator) :
  deep_tree sent = None ->
  annotate (C := with_collaborators C ef pm) sent = annotate (C := C) sent.
Proof.
  intros Hdt. unfold annotate, annotate_traced.
  destruct (scan_tokens 0 (tokens sent) scan_start) as [st|x]; [|reflexivity].
  simpl. unfold sentence_path. rewrite Hdt.
  change (foreign_guard (C := with_collaborators C ef pm) st)
    with (foreign_guard (C := C) st).
  destruct (foreign_guard (C := C) st); reflexivity.
Qed.

Lemma unparsed_sentence_skips_collaborators_witness :
  annotate (C := noisy_collaborators) demo_unparsed
  = annotate (C := demo_collaborators) demo_unparsed.
Proof.
  exact (unparsed_sentence_skips_collaborators demo_collaborators
           demo_unparsed _ _ eq_refl).
Defined.

(** With a deep tree they are consulted. *)
Example parsed_sentence_hears_collaborators :
  annotate (C := noisy_collaborators) demo_parsed
  <> annotate (C := demo_collaborators) demo_parsed.
Proof. vm_compute. discriminate. Qed.

(** *** The word counts *)

Lemma counts_cons (t : Tok) (ts : list Tok) :
  recognized (t :: ts) = (if is_recognized t then 1 else 0) + recognized ts
  /\ unrecognized (t :: ts)
     = (if is_unrecognized t then 1 else 0) + unrecognized ts.
Proof. unfold recognized, unrecognized. now rewrite !filter_length_cons. Qed.

Lemma counts_word_like (ts : list Tok) :
  recognized ts + unrecognized ts
  = Z.of_nat (length (List.filter word_like ts)).
Proof.
  induction ts as [|t ts IH]; [reflexivity|].
  destruct (counts_cons t ts) as [-> ->]. rewrite filter_length_cons, <- IH.
  unfold is_recognized, is_unrecognized, word_like.
  destruct (kind t); try destruct (has_meaning t); simpl; lia.
Qed.

Lemma counts_bounds (ts : list Tok) :
  0 <= recognized ts /\ 0 <= unrecognized ts
  /\ recognized ts + unrecognized ts <= Z.of_nat (length ts).
Proof.
  split; [unfold recognized; lia|]. split; [unfold unrecognized; lia|].
  rewrite counts_word_like. apply inj_le. apply List.filter_length_le.
Qed.

(** X4.  The two counters of the scan add up to the number of words and
    person names, so at most to the number of tokens; a sentence of fewer
    than three tokens is therefore never taken for foreign, and when the
    E004 annotation is produced its span [0, n - 1] has [n - 1 >= 2]. *)
Theorem foreign_needs_three_tokens `{C : Collaborators} (sent : Sentence) :
  well_formed sent ->
  exists st : ScanState,
    scan_tokens 0 (tokens sent) scan_start = Ok st
    /\ words_in_bin st + words_not_in_bin st
       = Z.of_nat (length (List.filter word_like (tokens sent)))
    /\ words_in_bin st + words_not_in_bin st <= Z.of_nat (length (tokens sent))
    /\ ((length (tokens sent) < 3)%nat ->
        sentence_path sent st <> E004_path)
    /\ (sentence_path sent st = E004_path ->
        start (E004_annotation sent st) = 0
        /\ 2 <= end_ (E004_annotation sent st)).
Proof.
  intros Hwf. exists (scanned (tokens sent)).
  split; [now apply scan_well_formed|].
  pose proof (counts_bounds (tokens sent)) as (_ & _ & Hle).
  pose proof (sentence_path_cases sent) as (H4 & _ & _).
  split; [apply counts_word_like|]. split; [exact Hle|].
  split.
  - intros Hlen Hp. apply H4 in Hp as [Hgt _]. lia.
  - intros Hp. apply H4 in Hp as [Hgt _]. simpl. unfold token_count. lia.
Qed.

Lemma foreign_needs_three_tokens_witness :
  exists st : ScanState,
    scan_tokens 0 (tokens demo_short) scan_start = Ok st
    /\ sentence_path (C := demo_collaborators) demo_short st <> E004_path.
Proof.
  destruct (foreign_needs_three_tokens (C := demo_collaborators)
              demo_short eq_refl)
    as (st & Hscan & _ & _ & Hshort & _).
  exists st. split; [exact Hscan|]. apply Hshort. simpl. lia.
Defined.

(** *** The percentage in the E004 detail *)





(** *** The window of the E001 detail *)

(** X6.  The tokens quoted in the E001 detail are those at positions
    [err_index - 1], [err_index], [err_index + 1] that exist: the first two
    tokens when [err_index] is [None] or 0, the (up to three) tokens from
    position [k] on when [err_index] is [k + 1], never more than three, and
    none when [err_index] lies more than one position past the end; the
    detail names token [err_index + 1] and quotes these tokens. *)
Theorem failure_window_bounds `{C : Collaborators} (sent : Sentence) :
  let quoted :=
    PyList.slice (tokens sent) (failure_start sent) (failure_end sent) in
  let e := match err_index sent with
           | Some k => Z.of_nat k
           | None => 0
           end in
  (length quoted <= 3)%nat
  /\ (err_index sent = None \/ err_index sent = Some 0%nat ->
      quoted = firstn 2 (tokens sent))
  /\ (forall k : nat,
        err_index sent = Some (S k) ->
        quoted = firstn 3 (skipn k (tokens sent))
        /\ ((k + 3 <= length (tokens sent))%nat -> length quoted = 3%nat))
  /\ (forall k : nat,
        err_index sent = Some k -> (length (tokens sent) + 1 <= k)%nat ->
        quoted = [])
  /\ detail (E001_annotation sent)
     = Some ("Þáttun brást í kring um " +:+ PyStr.str_of_int (e + 1)
             +:+ ". tóka ('"
             +:+ correct_spaces
                   (spaced
                      (map txt
                         (List.filter (fun t => PyStr.truthy (txt t)) quoted)))
             +:+ "')").
Proof.
  intros quoted e.
  assert (He : failure_index sent = e) by apply failure_index_reads_err_index.
  assert (He0 : 0 <= e) by (unfold e; destruct (err_index sent); lia).
  assert (Hs : failure_start sent = Z.max 0 (e - 1))
    by (unfold failure_start; now rewrite He).
  assert (Hn : failure_end sent = Z.min (token_count sent) (e + 2))
    by (unfold failure_end; now rewrite He).
  assert (Hq : quoted
               = firstn (Z.to_nat (failure_end sent - failure_start sent))
                   (skipn (Z.to_nat (failure_start sent)) (tokens sent))).
  { unfold quoted. rewrite failure_slice_window.
    rewrite PyList.window_skip by (rewrite He; lia).
    rewrite Z.sub_0_r. unfold failure_start, failure_end. reflexivity. }
  assert (Hcount : token_count sent = Z.of_nat (length (tokens sent)))
    by reflexivity.
  split; [|split; [|split; [|split]]].
  - rewrite Hq, length_firstn. lia.
  - intros Herr.
    assert (H0 : e = 0) by (unfold e; destruct Herr as [->| ->]; reflexivity).
    rewrite Hq, Hs, Hn, H0. simpl Z.max. simpl skipn.
    rewrite Z.sub_0_r, Hcount.
    destruct (tokens sent) as [|t0 [|t1 ts]]; try reflexivity.
    replace (Z.to_nat _) with 2%nat; [reflexivity|].
    simpl length. lia.
  - intros k Hk.
    assert (Hek : e = Z.of_nat (S k)) by (unfold e; now rewrite Hk).
    assert (Hq3 : quoted = firstn 3 (skipn k (tokens sent))).
    { rewrite Hq, Hs, Hn, Hek, Hcount.
      replace (Z.to_nat (Z.max 0 (Z.of_nat (S k) - 1))) with k by lia.
      destruct (le_lt_dec (k + 3) (length (tokens sent))) as [Hin|Hout].
      - f_equal. lia.
      - rewrite !firstn_all2; [reflexivity| |]; rewrite length_skipn; lia. }
    split; [exact Hq3|].
    intros Hin. rewrite Hq3, length_firstn, length_skipn. lia.
  - intros k Hk Hpast.
    assert (Hek : e = Z.of_nat k) by (unfold e; now rewrite Hk).
    rewrite Hq, Hs, Hn, Hek, Hcount.
    replace (Z.to_nat (Z.min _ _ - _)) with 0%nat by lia. reflexivity.
  - unfold E001_annotation, failure_toktext. simpl detail.
    now rewrite join_spaced, He.
Qed.

Lemma failure_window_bounds_witness :
  map txt (PyList.slice (tokens demo_unparsed_inner)
             (failure_start demo_unparsed_inner)
             (failure_end demo_unparsed_inner))
  = ["fer"; "heim"; "núna"]
  /\ detail (E001_annotation (C := demo_collaborators) demo_unparsed_inner)
     = Some "Þáttun brást í kring um 3. tóka ('fer heim núna')".
Proof.
  destruct (failure_window_bounds (C := demo_collaborators) demo_unparsed_inner)
    as (_ & _ & Hinner & _ & Hdetail).
  destruct (Hinner 1%nat eq_refl) as [Hq _].
  split; [now rewrite Hq | now rewrite Hdetail].
Defined.

Example demo_unparsed_quotes_two :
  map txt (PyList.slice (tokens demo_unparsed) (failure_start demo_unparsed)
             (failure_end demo_unparsed))
  = ["Eg"; "fer"].
Proof. vm_compute. reflexivity. Qed.

(** *** Sorting again, and the order of the token annotations *)

Lemma sorted_is_fixed (l : list Annotation) :
  StronglySorted precedes l -> sort_annotations l = l.
Proof.
  induction 1 as [|a l Hs IH Ha]; [reflexivity|].
  simpl. rewrite IH. destruct l as [|b l]; [reflexivity|].
  simpl. inversion Ha as [|? ? Hab _]; subst.
  apply key_leb_precedes in Hab. now rewrite Hab.
Qed.

(** X7.  Sorting a second time changes nothing: the list [annotate] returns
    is a fixed point of the final sort, and so is any sorted list. *)
Theorem annotate_output_is_sort_fixed_point
  `{C : Collaborators} (sent : Sentence) :
  well_formed sent ->
  (exists out : list Annotation,
      annotate sent = Ok out /\ sort_annotations out = out)
  /\ forall l : list Annotation,
      sort_annotations (sort_annotations l) = sort_annotations l.
Proof.
  intros Hwf. split.
  - unfold annotate. rewrite (annotate_traced_well_formed sent Hwf). simpl.
    eexists. split; [reflexivity|].
    apply sorted_is_fixed, sort_annotations_sorted.
  - intros l. apply sorted_is_fixed, sort_annotations_sorted.
Qed.

Lemma annotate_output_is_sort_fixed_point_witness :
  exists out : list Annotation,
    annotate (C := noisy_collaborators) demo_parsed = Ok out
    /\ sort_annotations out = out.
Proof.
  exact (proj1 (annotate_output_is_sort_fixed_point (C := noisy_collaborators)
                  demo_parsed eq_refl)).
Defined.

Lemma emitted_length (ix : Z) (t : Tok) :
  length (emitted ix t) = (if has_error_code t then 1 else 0)%nat.
Proof.
  unfold emitted, has_error_code. destruct (error_attrs t) as [e|]; [|reflexivity].
  now destruct (PyStr.truthy (error_code e)).
Qed.

Lemma token_annotations_length (ts : list Tok) (ix : Z) :
  length (token_annotations ix ts) = length (List.filter has_error_code ts).
Proof.
  revert ix. induction ts as [|t ts IH]; intros ix; [reflexivity|].
  simpl. rewrite length_app, emitted_length, IH.
  now destruct (has_error_code t).
Qed.

Lemma token_annotations_below (ts : list Tok) (ix : Z) (a : Annotation) :
  In a (token_annotations ix ts) -> start a < ix + Z.of_nat (length ts).
Proof.
  revert ix. induction ts as [|t ts IH]; intros ix; simpl; [tauto|].
  rewrite in_app_iff. intros [H|H].
  - apply emitted_start in H. lia.
  - apply IH in H. lia.
Qed.

Lemma token_annotations_increasing (ts : list Tok) (ix : Z) :
  StronglySorted (fun a b => start a < start b) (token_annotations ix ts).
Proof.
  revert ix. induction ts as [|t ts IH]; intros ix; simpl; [constructor|].
  unfold emitted at 1. destruct (error_attrs t) as [e|]; [|apply IH].
  destruct (PyStr.truthy (error_code e)); [|apply IH].
  simpl. constructor; [apply IH|].
  apply List.Forall_forall. intros b Hb.
  apply token_annotations_start in Hb. simpl. lia.
Qed.

(** X8.  The token scan leaves one annotation for each token with a
    non-empty error code and none for the others; the annotations come in
    token order, with strictly increasing starts, each start the position of
    its token (so within the sentence). *)
Theorem token_annotations_in_token_order (sent : Sentence) :
  well_formed sent ->
  exists st : ScanState,
    scan_tokens 0 (tokens sent) scan_start = Ok st
    /\ length (ann st) = length (List.filter has_error_code (tokens sent))
    /\ (length (ann st) <= length (tokens sent))%nat
    /\ StronglySorted (fun a b => start a < start b) (ann st)
    /\ (forall a : Annotation,
          In a (ann st) ->
          0 <= start a < Z.of_nat (length (tokens sent))
          /\ exists (t : Tok) (e : ErrorInfo),
               nth_error (tokens sent) (Z.to_nat (start a)) = Some t
               /\ error_attrs t = Some e /\ a = token_annotation (start a) e).
Proof.
  intros Hwf. exists (scanned (tokens sent)).
  split; [now apply scan_well_formed|].
  simpl ann. split; [apply token_annotations_length|].
  split; [rewrite token_annotations_length; apply List.filter_length_le|].
  split; [apply token_annotations_increasing|].
  intros a Ha.
  pose proof (token_annotations_start _ _ _ Ha) as Hlo.
  pose proof (token_annotations_below _ _ _ Ha) as Hhi.
  split; [lia|].
  assert (Hfil : In a (List.filter (fun b => start b =? 0 + Z.of_nat (Z.to_nat (start a)))
                         (token_annotations 0 (tokens sent)))).
  { apply filter_In. split; [exact Ha|]. apply Z.eqb_eq. lia. }
  rewrite token_annotations_at in Hfil.
  destruct (nth_error (tokens sent) (Z.to_nat (start a))) as [t|]; [|destruct Hfil].
  unfold emitted in Hfil. destruct (error_attrs t) as [e|] eqn:Hattr; [|destruct Hfil].
  destruct (PyStr.truthy (error_code e)); [|destruct Hfil].
  destruct Hfil as [Heq|[]]. exists t, e. split; [reflexivity|].
  split; [exact Hattr|].
  rewrite Z.add_0_l, Z2Nat.id in Heq by lia. now symmetry.
Qed.

Lemma token_annotations_in_token_order_witness :
  exists st : ScanState,
    scan_tokens 0 (tokens demo_parsed) scan_start = Ok st
    /\ length (ann st) = 2%nat.
Proof.
  destruct (token_annotations_in_token_order demo_parsed eq_refl)
    as (st & Hscan & Hlen & _).
  exists st. split; [exact Hscan | exact Hlen].
Defined.

Lemma increasing_is_sorted (l : list Annotation) :
  StronglySorted (fun a b => start a < start b) l -> StronglySorted precedes l.
Proof.
  induction 1 as [|a l Hs IH Ha]; constructor; [exact IH|].
  eapply List.Forall_impl; [|exact Ha]. intros b Hab. now left.
Qed.

(** X9.  On a parsed sentence to which the collaborators add nothing, the
    output is the list of token annotations as the scan left it, in token
    order: the final sort has nothing to move. *)
Theorem quiet_parse_keeps_token_order `{C : Collaborators} (sent : Sentence) :
  well_formed sent ->
  ~ looks_foreign (tokens sent) ->
  deep_tree sent <> None ->
  ErrorFinder_go (token_annotations 0 (tokens sent)) sent = [] ->
  PatternMatcher_go (token_annotations 0 (tokens sent)) sent = [] ->
  annotate sent = Ok (token_annotations 0 (tokens sent)).
Proof.
  intros Hwf Hnf Hdt Hef Hpm.
  pose proof (sentence_path_cases sent) as (_ & _ & Hs).
  assert (Hp : sentence_path sent (scanned (tokens sent)) = Success_path)
    by (apply Hs; now split).
  unfold annotate. rewrite (annotate_traced_well_formed sent Hwf), Hp.
  simpl. rewrite Hef, app_nil_r, Hpm, app_nil_r. f_equal.
  apply sorted_is_fixed, increasing_is_sorted, token_annotations_increasing.
Qed.

Lemma quiet_parse_keeps_token_order_witness :
  annotate (C := demo_collaborators) demo_parsed
  = Ok (token_annotations 0 (tokens demo_parsed)).
Proof.
  apply (quiet_parse_keeps_token_order (C := demo_collaborators) demo_parsed);
    try reflexivity.
  - intros [_ Hlt]. vm_compute in Hlt. discriminate.
  - discriminate.
Defined.

(** *** The empty sentence *)

Lemma slice_nil (A : Type) (lo hi : Z) : PyList.slice (@nil A) lo hi = [].
Proof. unfold PyList.slice. now rewrite skipn_nil, firstn_nil. Qed.

(** X10.  A sentence without tokens never fails and is never taken for
    foreign; when it has no deep tree the output is the E001 annotation
    alone, with the span [0, -1] and nothing quoted. *)
Theorem empty_sentence_is_unparseable `{C : Collaborators} (sent : Sentence) :
  tokens sent = [] ->
  deep_tree sent = None ->
  annotate sent
  = Ok [ {| start := 0;
            end_ := -1;
            code := "E001";
            text := "Málsgreinin fellur ekki að reglum";
            detail :=
              Some ("Þáttun brást í kring um "
                    +:+ PyStr.str_of_int (failure_index sent + 1)
                    +:+ ". tóka ('" +:+ correct_spaces "" +:+ "')") |} ].
Proof.
  intros Hts Hdt.
  assert (He001 : E001_annotation sent
                  = {| start := 0;
                       end_ := -1;
                       code := "E001";
                       text := "Málsgreinin fellur ekki að reglum";
                       detail :=
                         Some ("Þáttun brást í kring um "
                               +:+ PyStr.str_of_int (failure_index sent + 1)
                               +:+ ". tóka ('" +:+ correct_spaces "" +:+ "')") |}).
  { unfold E001_annotation, failure_toktext, token_count.
    rewrite Hts, slice_nil. reflexivity. }
  rewrite <- He001. unfold annotate, annotate_traced. rewrite Hts. simpl.
  unfold sentence_path. rewrite Hdt. reflexivity.
Qed.

Lemma empty_sentence_is_unparseable_witness :
  annotate (C := demo_collaborators) demo_empty
  = Ok [ {| start := 0; end_ := -1; code := "E001";
            text := "Málsgreinin fellur ekki að reglum";
            detail := Some "Þáttun brást í kring um 5. tóka ('')" |} ].
Proof.
  exact (empty_sentence_is_unparseable (C := demo_collaborators)
           demo_empty eq_refl eq_refl).
Defined.

End AnnotatorProps.

(** ** More on the subject-case predicates *)

Module SubjectCaseProps.

Import SubjectCase.

Lemma append_assoc (a b c : string) : (a ++ b) ++ c = a ++ b ++ c.
Proof.
  induction a as [|x a IH]; [reflexivity|].
  change (String x ((a ++ b) ++ c) = String x (a ++ b ++ c)). now f_equal.
Qed.

Lemma append_length (a b : string) :
  String.length (a ++ b) = (String.length a + String.length b)%nat.
Proof.
  induction a as [|x a IH]; [reflexivity|].
  change (S (String.length (a ++ b)) = S (String.length a + String.length b)).
  now f_equal.
Qed.

Lemma occurs_in_embedded (m form pre post : string) :
  PyStr.occurs_in m form -> PyStr.occurs_in m (pre ++ form ++ post).
Proof.
  intros (a & b & ->). exists (pre ++ a), (b ++ post).
  now rewrite !append_assoc.
Qed.

Lemma occurs_in_length (m form : string) :
  PyStr.occurs_in m form -> (String.length m <= String.length form)%nat.
Proof. intros (a & b & ->). rewrite !append_length. lia. Qed.

(** X11.  Only the presence of a marker counts, not where it stands: a form
    that [verb_cannot_be_impersonal] accepts is still accepted with any text
    put before and after it, and likewise an impersonal form of a verb that
    is not strictly impersonal stays blocked by
    [verb_is_strictly_impersonal]. *)
Theorem markers_survive_embedding
  (VS : VerbSubjects) (verb form pre post : string) :
  (verb_cannot_be_impersonal verb form = true ->
   verb_cannot_be_impersonal verb (pre ++ form ++ post) = true)
  /\ (verb_is_strictly_impersonal VS verb form = true ->
      verb_is_strictly_impersonal VS verb (pre ++ form ++ post) = true).
Proof.
  split.
  - unfold verb_cannot_be_impersonal. rewrite !any_marker_occurs.
    intros (m & Hin & Hm). exists m. split; [exact Hin|].
    now apply occurs_in_embedded.
  - unfold verb_is_strictly_impersonal.
    destruct (PyStr.contains "OP" form) eqn:Hop; [|discriminate].
    apply PyStr.contains_occurs in Hop.
    apply (occurs_in_embedded _ _ pre post), PyStr.contains_occurs in Hop.
    now rewrite Hop.
Qed.

Lemma markers_survive_embedding_witness :
  verb_cannot_be_impersonal "hlakka" ("OP-" ++ "GM-NH" ++ "-x") = true.
Proof.
  exact (proj1 (markers_survive_embedding demo_subjects "hlakka" "GM-NH"
                  "OP-" "-x") eq_refl).
Defined.

(** A byte that continues a UTF-8 sequence ([10xxxxxx]); every other byte
    starts a character. *)
Definition is_continuation (c : ascii) : bool :=
  (128 <=? nat_of_ascii c)%nat && (nat_of_ascii c <? 192)%nat.

(** [len(s)]: the number of characters of the text whose UTF-8 bytes are
    [s]. *)
Fixpoint char_count (s : string) : nat :=
  match s with
  | EmptyString => 0
  | String c rest =>
      (if is_continuation c then 0 else 1) + char_count rest
  end.

Lemma char_count_append (a b : string) :
  char_count (a ++ b) = (char_count a + char_count b)%nat.
Proof.
  induction a as [|x a IH]; [reflexivity|].
  change (((if is_continuation x then 0 else 1) + char_count (a ++ b))%nat
          = ((if is_continuation x then 0 else 1) + char_count a
             + char_count b)%nat).
  rewrite IH. lia.
Qed.

Lemma occurs_in_char_count (m form : string) :
  PyStr.occurs_in m form -> (char_count m <= char_count form)%nat.
Proof. intros (a & b & ->). rewrite !char_count_append. lia. Qed.

Lemma char_count_le_length (s : string) :
  (char_count s <= String.length s)%nat.
Proof.
  induction s as [|c s IH]; simpl; [lia|].
  destruct (is_continuation c); lia.
Qed.

(** X12.  A form of fewer than two characters (the empty form, or one
    letter, ASCII or not) holds no marker: both [verb_cannot_be_impersonal]
    and [verb_is_strictly_impersonal] answer false on it, for every verb. *)
Theorem short_forms_hold_no_marker (VS : VerbSubjects) (verb form : string) :
  (char_count form < 2)%nat ->
  verb_cannot_be_impersonal verb form = false
  /\ verb_is_strictly_impersonal VS verb form = false.
Proof.
  intros Hc. split.
  - apply not_true_is_false. unfold verb_cannot_be_impersonal.
    rewrite any_marker_occurs. intros (m & Hin & Hm).
    apply occurs_in_char_count in Hm.
    assert (Hm2 : char_count m = 2%nat)
      by (simpl in Hin; destruct Hin as [<-|[<-|[<-|[]]]]; reflexivity).
    lia.
  - unfold verb_is_strictly_impersonal.
    destruct (PyStr.contains "OP" form) eqn:Hop; [|reflexivity].
    apply PyStr.contains_occurs, occurs_in_char_count in Hop.
    change (char_count "OP") with 2%nat in Hop. lia.
Qed.

Lemma short_forms_hold_no_marker_witness :
  String.length "Þ" = 2%nat
  /\ verb_cannot_be_impersonal "langa" "Þ" = false
  /\ verb_is_strictly_impersonal demo_subjects "langa" "Þ" = false.
Proof.
  split; [reflexivity|].
  apply (short_forms_hold_no_marker demo_subjects "langa" "Þ").
  vm_compute. lia.
Defined.

Example characters_not_bytes :
  char_count "þgf" = 3%nat /\ String.length "þgf" = 4%nat
  /\ char_count "OP-ÞF" = 5%nat.
Proof. vm_compute. auto. Qed.

End SubjectCaseProps.

(** ** The capitalization state of [ErrorDetectionToken] *)

Module Capitalization.

(** The token handed to [ErrorDetectionToken.__init__], as far as the
    constructor looks at it: [None] when the token has no [_cap] attribute (a
    plain [Tok]), otherwise the attribute's value, itself [None] or a state
    name. *)
Definition cap_attribute : Type := option (option string).

(** [getattr(t, "_cap", None)]. *)
Definition getattr_cap (t : cap_attribute) : option string :=
  match t with
  | Some v => v
  | None => None
  end.

Record ErrorDetectionToken : Type := {
  _cap : option string
}.

(** [ErrorDetectionToken.__init__], the part that stores the state. *)
Definition init (t : cap_attribute) : ErrorDetectionToken :=
  {| _cap := getattr_cap t |}.

(** [self._cap == name]. *)
Definition cap_is (name : string) (tok : ErrorDetectionToken) : bool :=
  match _cap tok with
  | Some s => String.eqb s name
  | None => false
  end.

Definition cap_sentence_start (tok : ErrorDetectionToken) : bool :=
  cap_is "sentence_start" tok.

Definition cap_after_ordinal (tok : ErrorDetectionToken) : bool :=
  cap_is "after_ordinal" tok.

Definition cap_in_sentence (tok : ErrorDetectionToken) : bool :=
  cap_is "in_sentence" tok.

(** How many of the three properties hold. *)
Definition caps_set (tok : ErrorDetectionToken) : nat :=
  (if cap_sentence_start tok then 1 else 0)
  + (if cap_after_ordinal tok then 1 else 0)
  + (if cap_in_sentence tok then 1 else 0).

(** X13.  Of the three capitalization properties at most one holds of a
    token, and exactly one when the stored state is one of the three names;
    none holds of a token built from a plain [Tok] (no [_cap] attribute) or
    from one whose state is [None] or any other text. *)
Theorem capitalization_flags_exclusive (t : cap_attribute) :
  (caps_set (init t) <= 1)%nat
  /\ (caps_set (init t) = 1%nat
      <-> t = Some (Some "sentence_start") \/ t = Some (Some "after_ordinal")
          \/ t = Some (Some "in_sentence"))
  /\ (cap_sentence_start (init t) = true <-> t = Some (Some "sentence_start"))
  /\ (cap_after_ordinal (init t) = true <-> t = Some (Some "after_ordinal"))
  /\ (cap_in_sentence (init t) = true <-> t = Some (Some "in_sentence"))
  /\ (t = None \/ t = Some None -> caps_set (init t) = 0%nat).
Proof.
  assert (Hiff : forall name : string,
             cap_is name (init t) = true <-> t = Some (Some name)).
  { intros name. unfold cap_is, init, getattr_cap. simpl.
    destruct t as [[s|]|]; simpl.
    - rewrite String.eqb_eq. split; [now intros -> | now intros [= ->]].
    - split; discriminate.
    - split; discriminate. }
  unfold caps_set, cap_sentence_start, cap_after_ordinal, cap_in_sentence.
  pose proof (Hiff "sentence_start") as H1.
  pose proof (Hiff "after_ordinal") as H2.
  pose proof (Hiff "in_sentence") as H3.
  destruct (cap_is "sentence_start" (init t)) eqn:E1;
    destruct (cap_is "after_ordinal" (init t)) eqn:E2;
    destruct (cap_is "in_sentence" (init t)) eqn:E3;
    try (assert (Ha : t = Some (Some "sentence_start")) by (now apply H1));
    try (assert (Hb : t = Some (Some "after_ordinal")) by (now apply H2));
    try (assert (Hc : t = Some (Some "in_sentence")) by (now apply H3));
    try congruence;
    simpl; repeat split; intros; try lia; try tauto; try discriminate;
    try congruence; intuition (try discriminate; try congruence).
Qed.

Example plain_token_has_no_state :
  caps_set (init None) = 0%nat
  /\ cap_after_ordinal (init (Some (Some "after_ordinal"))) = true
  /\ cap_in_sentence (init (Some (Some "after_ordinal"))) = false.
Proof. vm_compute. auto. Qed.

End Capitalization.

(** ** More on the parser singleton: progress, pairing, [reducer] *)

Module LifecycleProps.

Import ParserLifecycle.

(** [GreynirCorrect.reducer]: [assert GreynirCorrect._reducer is not None],
    then the attribute; read without taking the lock. *)
Definition reducer (sh : Shared) : Annotator.result instance :=
  match _reducer sh with
  | Some r => Annotator.Ok r
  | None => Annotator.Raise Annotator.AssertionError
  end.

(** The number of steps in [sched] that move a thread (a scheduled thread
    that waits or has returned does not move). *)
Fixpoint moves (is_grammar_modified : instance -> bool)
  (sched : list nat) (w : World) : nat :=
  match sched with
  | [] => 0
  | t :: rest =>
      match step_thread is_grammar_modified t w with
      | Some w' => S (moves is_grammar_modified rest w')
      | None => moves is_grammar_modified rest w
      end
  end.

(** A call that is past the test of the [if]. *)
Definition past_test (p : pc) : nat :=
  match p with
  | Binding _ | AfterIf | Leaving _ | Returned _ => 1
  | Calling | Holding | Constructing => 0
  end.

(** The instance built before [edp], if any. *)
Definition previous (edp : instance) : option instance :=
  match edp with
  | O => None
  | S k => Some k
  end.

Definition is_binding (p : pc) : bool :=
  match p with
  | Binding _ => true
  | _ => false
  end.

(** How [_reducer] relates to [_parser]: they agree unless a thread stands
    between the two assignments, and then the reducer is still the one of the
    instance before, which is newer than anything a caller has got. *)
Record Paired (w : World) : Prop := {
  paired_idle :
    (forall (t : nat) (p : pc), threads w !! t = Some p -> is_binding p = false) ->
    _reducer (shared w) = _parser (shared w);
  paired_binding :
    forall (t : nat) (edp : instance),
      threads w !! t = Some (Binding edp) ->
      _reducer (shared w) = previous edp
      /\ forall (t' : nat) (r : option instance),
          threads w !! t' = Some (Returned r) ->
          exists i : instance, r = Some i /\ (i < edp)%nat
}.

Section Facts.

Variable is_grammar_modified : instance -> bool.

Lemma reachable_inv (n : nat) (sched : list nat) :
  Inv is_grammar_modified (run is_grammar_modified sched (first_calls n)).
Proof. apply run_inv, first_calls_inv. Qed.

(** A thread moves only if no other thread is in the locked region. *)
Lemma step_needs_lock (w w' : World) (t t2 : nat) (p2 : pc) :
  Inv is_grammar_modified w ->
  step_thread is_grammar_modified t w = Some w' ->
  threads w !! t2 = Some p2 -> in_critical p2 = true -> t2 = t.
Proof.
  intros HI Hs H2 Hc2. unfold step_thread in Hs.
  destruct (threads w !! t) as [p|] eqn:Ht; [|discriminate].
  destruct (in_critical p) eqn:Hc.
  - symmetry. now apply (critical_is_holder is_grammar_modified w t t2 p p2).
  - destruct (inv_threads _ _ HI t2 p2 H2) as [Hl _]. specialize (Hl Hc2).
    destruct p; try discriminate; simpl in Hs.
    rewrite Hl in Hs. discriminate.
Qed.

Lemma at_pc_lookup (w : World) (t t2 : nat) (p p' : pc) (sh' : Shared) :
  threads w !! t = Some p ->
  threads (at_pc t p' sh' w) !! t2
  = if decide (t = t2) then Some p' else threads w !! t2.
Proof.
  intros Ht. destruct (decide (t = t2)) as [<-|Hne].
  - apply at_pc_same. eapply lookup_lt_Some; eauto.
  - now apply at_pc_other.
Qed.

Lemma first_calls_paired (n : nat) : Paired (first_calls n).
Proof.
  split; simpl.
  - reflexivity.
  - intros t edp Ht. apply lookup_replicate in Ht as [Ht _]. discriminate.
Qed.

Lemma step_thread_paired (w w' : World) (t : nat) :
  Inv is_grammar_modified w -> Paired w ->
  step_thread is_grammar_modified t w = Some w' -> Paired w'.
Proof.
  intros HI HP Hs.
  pose proof (step_needs_lock w w' t) as Hothers.
  specialize (fun t2 p2 => Hothers t2 p2 HI Hs).
  unfold step_thread in Hs.
  destruct (threads w !! t) as [p|] eqn:Ht; [|discriminate].
  destruct (step_pc is_grammar_modified t (shared w) p) as [[p' sh']|] eqn:Hpc;
    [|discriminate].
  injection Hs as <-.
  pose proof (at_pc_lookup w t) as Hlook.
  specialize (fun t2 => Hlook t2 p p' sh' Ht).
  destruct (inv_threads _ _ HI t p Ht) as [_ Hp].
  (* no other thread is binding *)
  assert (Hnob : forall (t2 : nat) (edp : instance),
             t <> t2 -> threads w !! t2 <> Some (Binding edp)).
  { intros t2 edp Hne H2. apply Hne. symmetry.
    now apply (Hothers t2 (Binding edp)). }
  (* the old state is idle unless [t] is binding *)
  assert (Hidle : is_binding p = false ->
                  _reducer (shared w) = _parser (shared w)).
  { intros Hb. apply (paired_idle _ HP). intros t2 p2 H2.
    destruct (decide (t = t2)) as [<-|Hne]; [congruence|].
    destruct p2; try reflexivity. now apply Hnob in H2. }
  split.
  - intros Hnone.
    assert (Hp' : is_binding p' = false).
    { apply (Hnone t). rewrite Hlook. now rewrite decide_True. }
    destruct p; simpl in Hpc.
    + destruct (_lock (shared w)); [discriminate|].
      injection Hpc as <- <-. simpl. now apply Hidle.
    + destruct (needs_rebuild is_grammar_modified (shared w));
        injection Hpc as <- <-; now apply Hidle.
    + injection Hpc as <- <-. discriminate.
    + injection Hpc as <- <-. simpl. destruct Hp as [Hpar _]. now rewrite Hpar.
    + injection Hpc as <- <-. now apply Hidle.
    + injection Hpc as <- <-. simpl. now apply Hidle.
    + discriminate.
  - intros t2 edp H2. rewrite Hlook in H2.
    destruct (decide (t = t2)) as [<-|Hne]; [|now apply Hnob in H2].
    injection H2 as ->.
    destruct p; simpl in Hpc;
      try (destruct (_lock (shared w)); discriminate);
      try (destruct (needs_rebuild is_grammar_modified (shared w)); discriminate);
      try discriminate.
    injection Hpc as <- <-. simpl. split.
    + rewrite (Hidle eq_refl), (inv_latest _ _ HI). reflexivity.
    + intros t' r Hr. rewrite Hlook in Hr.
      destruct (decide (t = t')) as [<-|Hne]; [discriminate|].
      destruct (inv_threads _ _ HI t' _ Hr) as [_ Hret]. exact Hret.
Qed.

Lemma run_paired (sched : list nat) (w : World) :
  Inv is_grammar_modified w -> Paired w ->
  Paired (run is_grammar_modified sched w).
Proof.
  revert w. induction sched as [|t sched IH]; intros w HI HP; [exact HP|].
  simpl. unfold schedule_one.
  destruct (step_thread is_grammar_modified t w) as [w'|] eqn:Hs; simpl;
    [|now apply IH].
  apply IH.
  - now apply (step_thread_inv is_grammar_modified w w' t).
  - now apply (step_thread_paired w w' t).
Qed.

(** *** Counting moves and constructions *)

Lemma sum_insert (f : pc -> nat) (l : list pc) (t : nat) (p p' : pc) :
  l !! t = Some p ->
  (list_sum (map f (<[t := p']> l)) + f p = list_sum (map f l) + f p')%nat.
Proof.
  revert t. induction l as [|q l IH]; intros t Ht; [discriminate|].
  destruct t as [|t]; simpl in *.
  - inversion Ht; subst. lia.
  - specialize (IH t Ht). lia.
Qed.

Lemma moves_work (sched : list nat) (w : World) :
  (moves is_grammar_modified sched w
   + work_left (run is_grammar_modified sched w) <= work_left w)%nat.
Proof.
  revert w. induction sched as [|t sched IH]; intros w; simpl; [lia|].
  unfold schedule_one.
  destruct (step_thread is_grammar_modified t w) as [w'|] eqn:Hs; simpl.
  - pose proof (step_thread_progress is_grammar_modified _ _ _ Hs).
    specialize (IH w'). lia.
  - apply IH.
Qed.

Lemma first_calls_work (n : nat) : work_left (first_calls n) = (6 * n)%nat.
Proof.
  unfold work_left. simpl. induction n as [|n IH]; [reflexivity|].
  simpl replicate. simpl map. simpl list_sum. rewrite IH. lia.
Qed.

Lemma finish_within (m : nat) (w : World) :
  Inv is_grammar_modified w -> (work_left w <= m)%nat ->
  exists sched : list nat,
    (length sched <= m)%nat
    /\ all_returned (run is_grammar_modified sched w) = true.
Proof.
  revert w. induction m as [|m IH]; intros w HI Hm;
    destruct (all_returned w) eqn:Hall;
    try (exists []; split; [simpl; lia | exact Hall]);
    destruct (can_step is_grammar_modified w HI Hall) as (t & w' & Hs);
    pose proof (step_thread_progress is_grammar_modified _ _ _ Hs) as Hlt;
    [lia|].
  destruct (IH w') as (sched & Hlen & Hsched);
    [now apply (step_thread_inv is_grammar_modified w w' t) | lia |].
  exists (t :: sched). split; [simpl; lia|].
  simpl. unfold schedule_one. now rewrite Hs.
Qed.

Lemma past_test_le_length (l : list pc) :
  (list_sum (map past_test l) <= length l)%nat.
Proof.
  induction l as [|p l IH]; simpl; [lia|]. destruct p; simpl; lia.
Qed.

Lemma step_thread_counted (w w' : World) (t : nat) :
  (constructed (shared w) <= list_sum (map past_test (threads w)))%nat ->
  step_thread is_grammar_modified t w = Some w' ->
  (constructed (shared w') <= list_sum (map past_test (threads w')))%nat.
Proof.
  intros Hc. unfold step_thread.
  destruct (threads w !! t) as [p|] eqn:Ht; [|discriminate].
  destruct (step_pc is_grammar_modified t (shared w) p) as [[p' sh']|] eqn:Hpc;
    [|discriminate].
  intros [= <-]. simpl.
  pose proof (sum_insert past_test (threads w) t p p' Ht) as Hsum.
  destruct p; simpl in Hpc.
  - destruct (_lock (shared w)); [discriminate|].
    injection Hpc as <- <-. simpl in *. lia.
  - destruct (needs_rebuild is_grammar_modified (shared w));
      injection Hpc as <- <-; simpl in *; lia.
  - injection Hpc as <- <-. simpl in *. lia.
  - injection Hpc as <- <-. simpl in *. lia.
  - injection Hpc as <- <-. simpl in *. lia.
  - injection Hpc as <- <-. simpl in *. lia.
  - discriminate.
Qed.

Lemma run_counted (sched : list nat) (w : World) :
  (constructed (shared w) <= list_sum (map past_test (threads w)))%nat ->
  (constructed (shared (run is_grammar_modified sched w))
   <= list_sum (map past_test (threads (run is_grammar_modified sched w))))%nat.
Proof.
  revert w. induction sched as [|t sched IH]; intros w Hc; [exact Hc|].
  simpl. unfold schedule_one.
  destruct (step_thread is_grammar_modified t w) as [w'|] eqn:Hs; simpl;
    [|now apply IH].
  apply IH. now apply (step_thread_counted w w' t).
Qed.

End Facts.

(** Either some thread is between the two assignments, or none is. *)
Lemma classic_binding (w : World) :
  (exists (t : nat) (edp : instance), threads w !! t = Some (Binding edp))
  \/ (forall (t : nat) (p : pc), threads w !! t = Some p -> is_binding p = false).
Proof.
  induction (threads w) as [|q l IH].
  - right. intros t p Ht. destruct t; discriminate.
  - destruct q as [| | |edp| | |];
      try (destruct IH as [(t & edp & Ht)|Hnone];
           [left; now exists (S t), edp
           |right; intros [|t] p Ht; simpl in Ht;
            [now inversion Ht | now apply (Hnone t)]]).
    left. now exists 0%nat, edp.
Qed.

(** X14.  The lock never blocks for good.  In every state the [n] first
    calls can reach, under any schedule and whatever the grammar reports:
    the lock is held exactly when some thread is inside the locked region;
    as long as a call has not returned some thread can move; and once all
    have returned the lock is free and nothing moves any more. *)
Theorem parser_calls_never_deadlock
  (is_grammar_modified : instance -> bool) (n : nat) (sched : list nat) :
  let w := run is_grammar_modified sched (first_calls n) in
  (forall t : nat,
      _lock (shared w) = Some t
      <-> exists p : pc, threads w !! t = Some p /\ in_critical p = true)
  /\ (all_returned w = false ->
      exists (t : nat) (w' : World),
        step_thread is_grammar_modified t w = Some w')
  /\ (all_returned w = true ->
      _lock (shared w) = None
      /\ forall t : nat, step_thread is_grammar_modified t w = None).
Proof.
  intros w.
  pose proof (reachable_inv is_grammar_modified n sched) as HI. fold w in HI.
  split; [|split].
  - intros t. split; [apply (inv_holder _ _ HI)|].
    intros (p & Ht & Hc). now apply (inv_threads _ _ HI t p Ht).
  - now apply can_step.
  - intros Hall. split.
    + destruct (_lock (shared w)) as [t|] eqn:Hl; [|reflexivity].
      destruct (inv_holder _ _ HI t Hl) as (p & Ht & Hc).
      destruct (all_returned_lookup w t Hall) as [ret Hr];
        [eapply lookup_lt_Some; eauto|].
      rewrite Hr in Ht. inversion Ht; subst. discriminate.
    + intros t. unfold step_thread.
      destruct (threads w !! t) as [p|] eqn:Ht; [|reflexivity].
      destruct (all_returned_lookup w t Hall) as [ret Hr];
        [eapply lookup_lt_Some; eauto|].
      rewrite Hr in Ht. inversion Ht; subst. reflexivity.
Qed.

(** X15.  A call takes at most six steps: any schedule of [n] first calls
    makes at most [6 * n] moves, and from the state it reaches all calls can
    be brought to return within the moves that are left. *)
Theorem parser_calls_finish_in_six_steps
  (is_grammar_modified : instance -> bool) (n : nat) (sched : list nat) :
  let w := run is_grammar_modified sched (first_calls n) in
  (moves is_grammar_modified sched (first_calls n) + work_left w <= 6 * n)%nat
  /\ exists more : list nat,
      (length more <= work_left w)%nat
      /\ all_returned (run is_grammar_modified more w) = true.
Proof.
  intros w. split.
  - rewrite <- (first_calls_work n). apply moves_work.
  - apply (finish_within is_grammar_modified (work_left w) w); [|lia].
    apply reachable_inv.
Qed.

(** X16.  A call never returns [None]: whatever the schedule and whatever
    the grammar reports, a caller that has returned got an instance that had
    been constructed by then, and the singleton in place is that instance or
    a later one. *)
Theorem parser_returns_a_built_instance
  (is_grammar_modified : instance -> bool) (n : nat) (sched : list nat) :
  let w := run is_grammar_modified sched (first_calls n) in
  forall (t : nat) (ret : option instance),
    threads w !! t = Some (Returned ret) ->
    exists i j : instance,
      ret = Some i /\ _parser (shared w) = Some j
      /\ (i <= j)%nat /\ constructed (shared w) = S j.
Proof.
  intros w t ret Ht.
  pose proof (reachable_inv is_grammar_modified n sched) as HI. fold w in HI.
  destruct (inv_threads _ _ HI t _ Ht) as [_ (i & -> & Hi)].
  pose proof (inv_latest _ _ HI) as Hlatest.
  destruct (constructed (shared w)) as [|j]; [lia|].
  exists i, j. repeat split; auto. lia.
Qed.

Lemma parser_returns_a_built_instance_witness :
  exists i j : instance,
    Some 0%nat = Some i
    /\ _parser (shared (run (fun i => Nat.eqb i 0)
                           [0; 1; 0; 0; 1; 0; 0; 0; 1; 1; 1; 1; 1; 1]%nat
                           (first_calls 2)))
       = Some j
    /\ (i <= j)%nat
    /\ constructed (shared (run (fun i => Nat.eqb i 0)
                              [0; 1; 0; 0; 1; 0; 0; 0; 1; 1; 1; 1; 1; 1]%nat
                              (first_calls 2)))
       = S j.
Proof.
  exact (parser_returns_a_built_instance (fun i => Nat.eqb i 0) 2
           [0; 1; 0; 0; 1; 0; 0; 0; 1; 1; 1; 1; 1; 1]%nat
           0%nat (Some 0%nat) eq_refl).
Defined.

(** X17.  A call constructs at most one parser: [n] first calls never make
    more than [n] constructions, and never more than the number of calls
    that are past the test, whatever the grammar reports. *)
Theorem constructions_bounded_by_calls
  (is_grammar_modified : instance -> bool) (n : nat) (sched : list nat) :
  let w := run is_grammar_modified sched (first_calls n) in
  (constructed (shared w) <= list_sum (map past_test (threads w)))%nat
  /\ (constructed (shared w) <= n)%nat.
Proof.
  intros w.
  assert (Hc : (constructed (shared w)
                <= list_sum (map past_test (threads w)))%nat).
  { apply run_counted. simpl. lia. }
  split; [exact Hc|].
  pose proof (past_test_le_length (threads w)) as Hle.
  unfold w in Hle at 2. rewrite run_length in Hle. simpl in Hle.
  rewrite length_replicate in Hle. lia.
Qed.

(** X18.  The reducer belongs to the parser: in every reachable state in
    which no thread stands between the two assignments, and so whenever the
    lock is free, [_reducer] is the reducer of the instance in [_parser]
    (both absent before the first construction). *)
Theorem reducer_paired_with_parser
  (is_grammar_modified : instance -> bool) (n : nat) (sched : list nat) :
  let w := run is_grammar_modified sched (first_calls n) in
  ((forall (t : nat) (p : pc), threads w !! t = Some p -> is_binding p = false) ->
   _reducer (shared w) = _parser (shared w))
  /\ (_lock (shared w) = None -> _reducer (shared w) = _parser (shared w)).
Proof.
  intros w.
  pose proof (reachable_inv is_grammar_modified n sched) as HI. fold w in HI.
  assert (HP : Paired w).
  { apply run_paired; [apply first_calls_inv | apply first_calls_paired]. }
  split; [apply (paired_idle _ HP)|].
  intros Hl. apply (paired_idle _ HP). intros t p Ht.
  destruct p; try reflexivity.
  destruct (inv_threads _ _ HI t _ Ht) as [Hc _].
  specialize (Hc eq_refl). congruence.
Qed.

(** X19.  [reducer] fails its assertion when no call of [parser] has been
    made, and never once a call of [parser] has returned: it then yields
    the reducer of the current parser, or, while another thread is between
    the two assignments of a rebuild, that of the instance before. *)
Theorem reducer_available_after_parser
  (is_grammar_modified : instance -> bool) (n : nat) (sched : list nat) :
  let w := run is_grammar_modified sched (first_calls n) in
  reducer (shared (first_calls n)) = Annotator.Raise Annotator.AssertionError
  /\ ((exists (t : nat) (ret : option instance),
         threads w !! t = Some (Returned ret)) ->
      exists r : instance,
        reducer (shared w) = Annotator.Ok r
        /\ (_parser (shared w) = Some r
            \/ (_parser (shared w) = Some (S r)
                /\ exists t : nat, threads w !! t = Some (Binding (S r))))).
Proof.
  intros w. split; [reflexivity|].
  intros (t & ret & Ht).
  pose proof (reachable_inv is_grammar_modified n sched) as HI. fold w in HI.
  assert (HP : Paired w).
  { apply run_paired; [apply first_calls_inv | apply first_calls_paired]. }
  destruct (inv_threads _ _ HI t _ Ht) as [_ (i & -> & Hi)].
  pose proof (inv_latest _ _ HI) as Hlatest.
  unfold reducer.
  destruct (classic_binding w) as [(tb & edp & Hb)|Hnone].
  - destruct (paired_binding _ HP tb edp Hb) as [Hred Hold].
    destruct (Hold t _ Ht) as (i' & [= <-] & Hlt).
    destruct edp as [|k]; [lia|]. simpl in Hred. rewrite Hred.
    exists k. split; [reflexivity|]. right.
    destruct (inv_threads _ _ HI tb _ Hb) as [_ [Hpar _]].
    split; [exact Hpar | now exists tb].
  - rewrite (paired_idle _ HP Hnone), Hlatest.
    destruct (constructed (shared w)) as [|j]; [lia|].
    exists j. split; [reflexivity|]. now left.
Qed.

(** Between the two assignments of a rebuild the reducer is still the old
    one: thread 1 has assigned instance 1 and not yet its reducer. *)
Example reducer_lags_during_rebuild :
  let w := run (fun i => Nat.eqb i 0)
             [0; 0; 0; 0; 0; 0; 1; 1; 1]%nat (first_calls 2) in
  threads w = [Returned (Some 0%nat); Binding 1%nat]
  /\ _parser (shared w) = Some 1%nat
  /\ reducer (shared w) = Annotator.Ok 0%nat.
Proof. vm_compute. auto. Qed.

Example blocked_thread_does_not_move :
  moves (fun _ => false) [0; 1; 1; 1; 0]%nat (first_calls 2) = 2%nat.
Proof. vm_compute. reflexivity. Qed.

End LifecycleProps.
